(** * apitrace trim: the contiguous call-number tracker and the trimming loop

    A shallow embedding of [cli/cli_trim.cpp]: the class
    [ContiguousNumberTracker], the function [trim_trace] and the option
    handling of [command], followed by the properties proved about them.

    Conventions.  A C++ [unsigned] is an [N] below [2^32]; [n++] is
    [uint_succ], which wraps.  A [std::set<unsigned>] is a [gset N].  An
    [int] is a [Z]; where an [int] meets an [unsigned] in a comparison it is
    converted to [unsigned] first ([uint_of_int]).  Objects the code mutates
    (the tracker, the writer, the frame counter, [options->output]) are
    threaded through explicitly. *)

From stdpp Require Import gmap strings list.
From Stdlib Require Import NArith ZArith Ascii Lia.

Local Open Scope N_scope.

(** ** Unsigned arithmetic *)

Definition UINT_MAX : N := 4294967295.

(** [n++] on an [unsigned]. *)
Definition uint_succ (n : N) : N := (n + 1) mod 2 ^ 32.

(** The conversion of an [int] to [unsigned]: the value modulo [2^32]. *)
Definition uint_of_int (i : Z) : N := Z.to_N (i mod 2 ^ 32).

(** ** ContiguousNumberTracker *)

Record ContiguousNumberTracker := mkTracker {
  nextExpectedNumber : N;
  receivedOutOfOrder : gset N
}.

(** The constructor: [nextExpectedNumber = 0], an empty set. *)
Definition tracker_new : ContiguousNumberTracker := mkTracker 0 ∅.

(** [std::set::erase(key)]: the number of elements removed (0 or 1) and the
    set afterwards. *)
Definition set_erase (x : N) (s : gset N) : N * gset N :=
  if decide (x ∈ s) then (1, s ∖ {[x]}) else (0, s).

(** [while (receivedOutOfOrder.erase(nextExpectedNumber)) nextExpectedNumber++;]
    Every turn that goes on removes one element of the set, so one more turn
    than the set has elements is enough ([catch_up_while] below shows that the
    loop is then left through its test, never for lack of fuel). *)
Fixpoint catch_up (fuel : nat) (t : ContiguousNumberTracker) : ContiguousNumberTracker :=
  match fuel with
  | O => t
  | S fuel' =>
      let '(erased, s) := set_erase (nextExpectedNumber t) (receivedOutOfOrder t) in
      if erased =? 0 then mkTracker (nextExpectedNumber t) s
      else catch_up fuel' (mkTracker (uint_succ (nextExpectedNumber t)) s)
  end.

(** [unsigned finish(unsigned n)]: the value returned and the tracker
    afterwards. *)
Definition finish (n : N) (t : ContiguousNumberTracker) : N * ContiguousNumberTracker :=
  let t' :=
    if n =? nextExpectedNumber t then
      catch_up (S (size (receivedOutOfOrder t)))
               (mkTracker (uint_succ (nextExpectedNumber t)) (receivedOutOfOrder t))
    else
      mkTracker (nextExpectedNumber t) ({[n]} ∪ receivedOutOfOrder t) in
  (nextExpectedNumber t', t').

(** A sequence of [finish] calls, in the order of the list. *)
Definition finish_all (l : list N) (t : ContiguousNumberTracker) : ContiguousNumberTracker :=
  foldl (fun t n => snd (finish n t)) t l.

(** The numbers [0, 1, ..., n-1]. *)
Definition numbers_below (n : N) : list N := N.of_nat <$> seq 0 (N.to_nat n).

(** ** What trim sees of the trace library

    [trace::Call], [trace::Parser], [trace::Writer], [trace::CallSet] and
    [os::String] are declared in headers that are not part of this file.
    They are modelled by what [cli_trim.cpp] does with them. *)

(** Modelled from the spec: [trace::Call] (trace_model.hpp), an event with
    a sequence number [no], a [thread_id], [flags] and a payload that trim
    forwards and never inspects, here [body].  The three fields trim reads
    are [unsigned]. *)
Record Call := mkCall {
  no : N;
  thread_id : N;
  flags : N;
  body : string
}.

(** Modelled from the spec: one result of [trace::Parser::parse_call]
    (trace_parser.hpp), an event, or a read that fails in mid-stream.  The
    function returns a [trace::Call *], either a call or the null pointer: a
    failed read has no value of its own in that type, it reaches trim as the
    null pointer, like the end of the stream. *)
Inductive ParseResult :=
  | Parsed (c : Call)
  | ReadFailure.

(** Modelled from the spec: a [trace::Parser] that has been opened, as the
    results its next [parse_call]s produce. *)
Definition Parser := list ParseResult.

(** Modelled from the spec: [trace::Parser::parse_call], the next event or
    null; past the end of the stream it returns null. *)
Definition parse_call (p : Parser) : option Call * Parser :=
  match p with
  | Parsed c :: rest => (Some c, rest)
  | ReadFailure :: rest => (None, rest)
  | [] => (None, [])
  end.

(** The calls [parse_call] delivers before it first returns null, and the
    parser after that null. *)
Fixpoint parsed_calls (p : Parser) : list Call :=
  match p with
  | Parsed c :: rest => c :: parsed_calls rest
  | _ => []
  end.

Fixpoint after_null (p : Parser) : Parser :=
  match p with
  | Parsed _ :: rest => after_null rest
  | ReadFailure :: rest => rest
  | [] => []
  end.

(** Modelled from the spec: what [trace::Parser] finds in a trace it has
    opened, the format version, the format properties and the events. *)
Record TraceFile := mkTraceFile {
  version : N;
  properties : list (string * string);
  events : Parser
}.

(** Modelled from the spec: the file system as trim meets it,
    [trace::Parser::open] on an input name and [trace::Writer::open] on an
    output name with the version and properties of the input. *)
Record Env := mkEnv {
  open_input : string → option TraceFile;
  create_output : string → N → list (string * string) → bool
}.

(** Modelled from the spec: the two frequencies of trace_callset.hpp that
    [command] builds a [trace::CallSet] from, no indices and every index. *)
Inductive Frequency := FREQUENCY_NONE | FREQUENCY_ALL.

(** The interface of [trace::CallSet] that trim calls: the constructor from
    a frequency, [contains(CallNo, CallFlags)], [empty()] and [getLast()]. *)
Class CallSetOps (CallSet : Type) := {
  callset_of : Frequency → CallSet;
  contains : CallSet → N → N → bool;
  empty : CallSet → bool;
  getLast : CallSet → N
}.

(** ** trim_options, trim_trace and command *)

Definition nl : string := String "010"%char EmptyString.

Definition synopsis : string := "Create a new trace by trimming an existing trace.".

Definition usage_text : string :=
  "usage: apitrace trim [OPTIONS] TRACE_FILE..." +:+ nl +:+
  synopsis +:+ nl +:+
  nl +:+
  "    -h, --help               Show detailed help for trim options and exit" +:+ nl +:+
  "        --calls=CALLSET      Include specified calls in the trimmed output." +:+ nl +:+
  "        --frames=FRAMESET    Include specified frames in the trimmed output." +:+ nl +:+
  "        --thread=THREAD_ID   Only retain calls from specified thread" +:+ nl +:+
  "    -o, --output=TRACE_FILE  Output trace file" +:+ nl.

Section trim.

Context {CallSet : Type} `{!CallSetOps CallSet}.

(** [trace::CALL_FLAG_END_FRAME], [os::String::trimExtension],
    [CallSet::merge] on a C string and [atoi] come from outside this file. *)
Variable CALL_FLAG_END_FRAME : N.
Variable trimExtension : string → string.
Variable merge : CallSet → string → CallSet.
Variable atoi : string → Z.

Record trim_options := mkOptions {
  calls : CallSet;
  frames : CallSet;
  output : string;
  thread : Z
}.

(** The objects the loop of [trim_trace] updates: the calls handed to
    [writer.writeCall] so far (oldest first), [frame], and
    [callNumberTracker]. *)
Record LoopState := mkLoop {
  writer : list Call;
  frame : N;
  callNumberTracker : ContiguousNumberTracker
}.

Definition loop_start : LoopState := mkLoop [] 0 tracker_new.

(** [options->thread == -1 || call->thread_id == options->thread]: the
    first comparison is between two [int]s; in the second [thread_id] is
    [unsigned], so the [int] is converted to [unsigned] before the
    comparison. *)
Definition thread_selected (o : trim_options) (c : Call) : bool :=
  (thread o =? -1)%Z || (thread_id c =? uint_of_int (thread o)).

(** The whole test that guards [writer.writeCall(call)];
    [calls.contains( *call )] looks the call up by its number and flags. *)
Definition call_selected (o : trim_options) (f : N) (c : Call) : bool :=
  thread_selected o c &&
  (contains (calls o) (no c) (flags c) || contains (frames o) f (flags c)).

(** [call->flags & trace::CALL_FLAG_END_FRAME] *)
Definition ends_frame (c : Call) : bool :=
  negb (N.land (flags c) CALL_FLAG_END_FRAME =? 0).

(** The test that guards [break]. *)
Definition past_last (o : trim_options) (nextExpectedCall f : N) : bool :=
  (empty (calls o) || (getLast (calls o) <? nextExpectedCall)) &&
  (empty (frames o) || (getLast (frames o) <? f)).

(** The body of the [while] loop for a parsed call: the state afterwards and
    whether the body ends in [break]. *)
Definition loop_body (o : trim_options) (c : Call) (st : LoopState) : LoopState * bool :=
  let '(nextExpectedCall, tracker) := finish (no c) (callNumberTracker st) in
  let written :=
    if call_selected o (frame st) c then writer st ++ [c] else writer st in
  let f := if ends_frame c then uint_succ (frame st) else frame st in
  (mkLoop written f tracker, past_last o nextExpectedCall f).

(** [while ((call = p.parse_call())) { ... }]: the parser and the state when
    the loop is left.  The recursion follows [parse_call]: one result of the
    parser is consumed per turn. *)
Fixpoint trim_loop (o : trim_options) (p : Parser) (st : LoopState) : Parser * LoopState :=
  match p with
  | Parsed c :: rest =>
      let '(st', stop) := loop_body o c st in
      if stop then (rest, st') else trim_loop o rest st'
  | ReadFailure :: rest => (rest, st)
  | [] => ([], st)
  end.

(** The loop body applied to a list of calls in turn, without the [break]. *)
Definition run_all (o : trim_options) (cs : list Call) (st : LoopState) : LoopState :=
  foldl (fun st c => fst (loop_body o c st)) st cs.

(** What a run of [trim_trace] leaves behind: the value returned, the lines
    sent to [std::cerr] and [std::cout], [options->output], and, when the
    loop was reached, the parser and the loop state at its end. *)
Record Outcome := mkOutcome {
  exit_status : Z;
  cerr : list string;
  cout : list string;
  output_name : string;
  run : option (Parser * LoopState)
}.

(** The name of the output file: [options->output], or when that is empty
    the input name without its extension followed by [-trim.trace]. *)
Definition output_file (filename : string) (o : trim_options) : string :=
  if bool_decide (output o = EmptyString)
  then trimExtension filename +:+ "-trim.trace"
  else output o.

(** [options->output = ...]: the options with the output name filled in. *)
Definition with_output (o : trim_options) (out : string) : trim_options :=
  mkOptions (calls o) (frames o) out (thread o).

Definition trim_trace (env : Env) (filename : string) (o : trim_options) : Outcome :=
  match open_input env filename with
  | None =>
      mkOutcome 1 ["error: failed to open " +:+ filename +:+ nl] [] (output o) None
  | Some file =>
      let out := output_file filename o in
      if create_output env out (version file) (properties file) then
        mkOutcome 0 ["Trimmed trace is available as " +:+ out +:+ nl] [] out
                  (Some (trim_loop (with_output o out) (events file) loop_start))
      else
        mkOutcome 1 ["error: failed to create " +:+ out +:+ nl] [] out None
  end.

(** The calls a run has handed to the writer. *)
Definition written_calls (r : Outcome) : list Call :=
  match run r with
  | Some (_, st) => writer st
  | None => []
  end.

(** One result of [getopt_long] with the long and short options of trim;
    [OptOther] is any value the [switch] has no case for. *)
Inductive Opt :=
  | OptHelp
  | OptCalls (optarg : string)
  | OptFrames (optarg : string)
  | OptThread (optarg : string)
  | OptOutput (optarg : string)
  | OptOther (opt : ascii).

(** The [while ((opt = getopt_long(...)) != -1)] loop: the options built, or
    the outcome of the [return] inside the [switch]. *)
Fixpoint read_options (opts : list Opt) (o : trim_options) : trim_options + Outcome :=
  match opts with
  | [] => inl o
  | OptHelp :: _ => inr (mkOutcome 0 [] [usage_text] (output o) None)
  | OptCalls optarg :: rest =>
      read_options rest (mkOptions (merge (calls o) optarg) (frames o) (output o) (thread o))
  | OptFrames optarg :: rest =>
      read_options rest (mkOptions (calls o) (merge (frames o) optarg) (output o) (thread o))
  | OptThread optarg :: rest =>
      read_options rest (mkOptions (calls o) (frames o) (output o) (atoi optarg))
  | OptOutput optarg :: rest =>
      read_options rest (mkOptions (calls o) (frames o) optarg (thread o))
  | OptOther opt :: _ =>
      inr (mkOutcome 1
             ["error: unexpected option `" +:+ String opt EmptyString +:+ "`" +:+ nl]
             [usage_text] (output o) None)
  end.

(** [if (options.calls.empty() && options.frames.empty())
       options.calls = trace::CallSet(trace::FREQUENCY_ALL);] *)
Definition default_calls (o : trim_options) : trim_options :=
  if empty (calls o) && empty (frames o)
  then mkOptions (callset_of FREQUENCY_ALL) (frames o) (output o) (thread o)
  else o.

(** [command]: [opts] are the options [getopt_long] finds and [args] the
    arguments from [argv[optind]] on. *)
Definition command (env : Env) (opts : list Opt) (args : list string) : Outcome :=
  let start :=
    mkOptions (callset_of FREQUENCY_NONE) (callset_of FREQUENCY_NONE) EmptyString (-1) in
  match read_options opts start with
  | inr early => early
  | inl o =>
      let o := default_calls o in
      match args with
      | [] =>
          mkOutcome 1
            ["error: apitrace trim requires a trace file as an argument." +:+ nl]
            [usage_text] (output o) None
      | [filename] => trim_trace env filename o
      | _ :: extra =>
          mkOutcome 1
            ["error: extraneous arguments:" +:+
             foldr (fun a s => " " +:+ a +:+ s) EmptyString extra +:+ nl]
            [usage_text] (output o) None
      end
  end.

End trim.

(** ** The selection set of the specification

    [trace::CallSet] is implemented in trace_callset.hpp, which is not part
    of this file; the instance below follows the specification's
    SelectionSet. *)

(** Modelled from the spec: the upper end of a range of [trace::CallSet], an
    inclusive index or none for an open-ended-from range. *)
Inductive RangeEnd :=
  | UpTo (last : N)
  | OpenEnded.

(** Modelled from the spec: one inclusive integer range of [trace::CallSet]. *)
Record CallRange := mkRange {
  range_first : N;
  range_last : RangeEnd
}.

(** Modelled from the spec: [trace::CallSet] as a tagged variant, explicitly
    empty, explicitly everything, or a non-empty collection of ranges (which
    may overlap). *)
Inductive SelectionSet :=
  | SelectNone
  | SelectAll
  | SelectRanges (r : CallRange) (rs : list CallRange).

(** Modelled from the spec: membership of an index in one range of
    [trace::CallSet]. *)
Definition in_range (n : N) (r : CallRange) : bool :=
  (range_first r <=? n) &&
  match range_last r with
  | UpTo last => n <=? last
  | OpenEnded => true
  end.

(** Modelled from the spec: [CallSet::contains], true iff the index falls in
    at least one configured range; the flags of the call do not enter. *)
Definition selection_contains (s : SelectionSet) (n : N) (call_flags : N) : bool :=
  match s with
  | SelectNone => false
  | SelectAll => true
  | SelectRanges r rs => existsb (in_range n) (r :: rs)
  end.

(** Modelled from the spec: [CallSet::empty], true iff the set was built
    with no indices and never merged with a non-empty specification. *)
Definition selection_isEmpty (s : SelectionSet) : bool :=
  match s with
  | SelectNone => true
  | _ => false
  end.

(** Modelled from the spec: the result of highestSelected() for
    [trace::CallSet], undefined for the empty set, the maximum finite index
    covered, or unbounded. *)
Inductive Highest :=
  | NoIndex
  | Index (n : N)
  | Unbounded.

(** Modelled from the spec: the larger of two results of highestSelected()
    for [trace::CallSet]. *)
Definition highest_max (a b : Highest) : Highest :=
  match a, b with
  | Unbounded, _ | _, Unbounded => Unbounded
  | NoIndex, h | h, NoIndex => h
  | Index n, Index m => Index (N.max n m)
  end.

(** Modelled from the spec: highestSelected() of [trace::CallSet], unbounded
    if the set denotes everything or contains an open-ended-from range. *)
Definition highestSelected (s : SelectionSet) : Highest :=
  match s with
  | SelectNone => NoIndex
  | SelectAll => Unbounded
  | SelectRanges r rs =>
      foldr (fun r h =>
               highest_max h match range_last r with
                             | UpTo last => Index last
                             | OpenEnded => Unbounded
                             end)
            NoIndex (r :: rs)
  end.

(** Modelled from the spec: [CallSet::getLast].  trim compares the result
    with an [unsigned] by [>], so an unbounded set answers with the largest
    [unsigned], which no [unsigned] exceeds; the answer for the empty set is
    never looked at, [empty()] is tested first. *)
Definition selection_getLast (s : SelectionSet) : N :=
  match highestSelected s with
  | NoIndex => 0
  | Index n => n
  | Unbounded => UINT_MAX
  end.

(** Modelled from the spec: the constructor of [trace::CallSet] from a
    frequency, no indices or every index. *)
Definition selection_of (f : Frequency) : SelectionSet :=
  match f with
  | FREQUENCY_NONE => SelectNone
  | FREQUENCY_ALL => SelectAll
  end.

(** Modelled from the spec: the operations of [trace::CallSet] that trim
    calls, on the SelectionSet above. *)
#[export] Instance selection_ops : CallSetOps SelectionSet := {
  callset_of := selection_of;
  contains := selection_contains;
  empty := selection_isEmpty;
  getLast := selection_getLast
}.

(** A set is unbounded for trim when it is not empty and no [unsigned]
    exceeds its [getLast()]. *)
Definition unbounded `{CallSetOps CallSet} (s : CallSet) : Prop :=
  empty s = false ∧ UINT_MAX ≤ getLast s.

(** ** Invariants of the tracker *)

(** The invariant of the catch-up loop while the numbers in [D] have been
    finished and [k] has not: the counter has not passed [k] and has not
    fallen below [lo], everything under it is finished, and every finished
    number from it on waits in the out-of-order set. *)
Record frontier_loop (lo k : N) (D : gset N) (t : ContiguousNumberTracker) : Prop := {
  fl_from : lo ≤ nextExpectedNumber t;
  fl_bound : nextExpectedNumber t ≤ k;
  fl_below : ∀ x, x < nextExpectedNumber t → x ∈ D;
  fl_queued : ∀ x, nextExpectedNumber t ≤ x → x ∈ D → x ∈ receivedOutOfOrder t;
  fl_sound : receivedOutOfOrder t ⊆ D
}.

(** The invariant between two calls of [finish]: the loop invariant, and the
    counter itself does not wait in the set. *)
Record frontier (lo k : N) (D : gset N) (t : ContiguousNumberTracker) : Prop := {
  fr_loop : frontier_loop lo k D t;
  fr_exit : nextExpectedNumber t ∉ receivedOutOfOrder t
}.

(** Every [unsigned] has been finished. *)
Definition all_finished (D : gset N) : Prop := ∀ x, x ≤ UINT_MAX → x ∈ D.

(** The invariant of the catch-up loop when no number is finished twice:
    either the set holds exactly the finished numbers from the counter on,
    or the counter has wrapped to 0 because every [unsigned] is finished. *)
Inductive discipline_loop (D : gset N) (t : ContiguousNumberTracker) : Prop :=
  | dl_running :
      (∀ x, x < nextExpectedNumber t → x ∈ D) →
      (∀ x, x ∈ receivedOutOfOrder t ↔ x ∈ D ∧ nextExpectedNumber t ≤ x) →
      discipline_loop D t
  | dl_wrapped :
      nextExpectedNumber t = 0 → receivedOutOfOrder t = ∅ → all_finished D →
      discipline_loop D t.

(** The invariant between two calls of [finish] when no number is finished
    twice. *)
Inductive discipline (D : gset N) (t : ContiguousNumberTracker) : Prop :=
  | di_normal :
      (∀ x, x < nextExpectedNumber t → x ∈ D) →
      nextExpectedNumber t ∉ D →
      (∀ x, x ∈ receivedOutOfOrder t ↔ x ∈ D ∧ nextExpectedNumber t < x) →
      discipline D t
  | di_saturated :
      nextExpectedNumber t = 0 → receivedOutOfOrder t = ∅ → all_finished D →
      discipline D t.

(** The values of [frame] and of the tracker's counter are [unsigned]s. *)
Definition in_range_state (st : LoopState) : Prop :=
  frame st ≤ UINT_MAX ∧ nextExpectedNumber (callNumberTracker st) ≤ UINT_MAX.

(** An option that sets neither the calls nor the frames selection and
    does not make [command] return from its [switch]. *)
Definition thread_or_output (opt : Opt) : Prop :=
  match opt with
  | OptThread _ | OptOutput _ => True
  | _ => False
  end.

(** ** Data for the examples *)

(** A value of [trace::CALL_FLAG_END_FRAME] to run the examples with; the
    theorems hold for every value. *)
Definition END_FRAME_BIT : N := 32.

(** The selection [0-2]. *)
Definition calls_0_to_2 : SelectionSet := SelectRanges (mkRange 0 (UpTo 2)) [].

(** Four calls of two threads, the call numbered 2 recorded before the call
    numbered 1. *)
Definition interleaved : list Call :=
  [mkCall 0 1 0 "glClear"; mkCall 2 2 0 "glFlush";
   mkCall 1 1 0 "glDrawArrays"; mkCall 3 1 0 "glFinish"].

(** A file system with one trace, [in.trace], in which only [out.trace] can
    be created. *)
Definition one_trace (p : Parser) : Env :=
  mkEnv (fun name => if String.eqb name "in.trace" then Some (mkTraceFile 5 [] p) else None)
        (fun name _ _ => String.eqb name "out.trace").

(** ** stringCompare *)

(** The C library's [strcmp] on two C strings.  A C string ends at its
    first NUL character (here also at the end of the [string]); the bytes
    are compared as [unsigned char], and the result is the difference of the
    first two bytes that differ, 0 if there are none. *)
Fixpoint strcmp (a b : string) : Z :=
  match a, b with
  | EmptyString, EmptyString => 0
  | EmptyString, String d _ => 0 - Z.of_N (N_of_ascii d)
  | String c _, EmptyString => Z.of_N (N_of_ascii c) - 0
  | String c a', String d b' =>
      if N_of_ascii c =? N_of_ascii d
      then if N_of_ascii c =? 0 then 0%Z else strcmp a' b'
      else (Z.of_N (N_of_ascii c) - Z.of_N (N_of_ascii d))%Z
  end.

(** [stringCompare::operator()]: [strcmp(a, b) < 0]. *)
Definition stringCompare (a b : string) : bool := (strcmp a b <? 0)%Z.

(** The bytes of a C string, up to its first NUL character. *)
Fixpoint c_bytes (a : string) : list N :=
  match a with
  | EmptyString => []
  | String c a' => if N_of_ascii c =? 0 then [] else N_of_ascii c :: c_bytes a'
  end.

(** ** What the loop has read *)

Section trim_reads.

Context {CallSet : Type} `{!CallSetOps CallSet}.
Variable CALL_FLAG_END_FRAME : N.

(** The calls [parse_call] has delivered to the loop of [trim_trace] when
    the loop is left: all calls up to the first null result, or up to and
    including the call whose turn ends in [break]. *)
Fixpoint calls_read (o : trim_options) (p : Parser) (st : LoopState) : list Call :=
  match p with
  | Parsed c :: rest =>
      let '(st', stop) := loop_body CALL_FLAG_END_FRAME o c st in
      if stop then [c] else c :: calls_read o rest st'
  | _ => []
  end.

(** [getLast()] bounds the [unsigned] indices a set contains, and a set that
    contains an index is not empty. *)
Definition last_bounds (s : CallSet) : Prop :=
  ∀ n call_flags, n ≤ UINT_MAX → contains s n call_flags = true →
                  empty s = false ∧ n ≤ getLast s.

End trim_reads.

(** Every number from 0 to [last] is in the list. *)
Definition numbers_complete (last : N) (l : list N) : Prop :=
  ∀ j, j ≤ last → j ∈ l.

(** * Properties *)

(** ** Unsigned arithmetic and ranges of numbers *)

Lemma uint_succ_small (n : N) : n < UINT_MAX → uint_succ n = n + 1.
Proof. unfold uint_succ, UINT_MAX. intros Hn. apply N.mod_small. lia. Qed.

Lemma uint_succ_range (n : N) : uint_succ n ≤ UINT_MAX.
Proof.
  unfold uint_succ, UINT_MAX.
  pose proof (N.mod_upper_bound (n + 1) (2 ^ 32)). lia.
Qed.

Lemma uint_succ_max : uint_succ UINT_MAX = 0.
Proof. reflexivity. Qed.

Lemma elem_of_numbers_below (n x : N) : x ∈ numbers_below n ↔ x < n.
Proof.
  unfold numbers_below. rewrite list_elem_of_fmap. split.
  - intros (i & -> & Hi). apply elem_of_seq in Hi. lia.
  - intros Hx. exists (N.to_nat x). split; [lia|]. apply elem_of_seq. lia.
Qed.

Lemma NoDup_numbers_below (n : N) : NoDup (numbers_below n).
Proof.
  unfold numbers_below. apply NoDup_fmap_2; [|apply NoDup_seq].
  intros i j Hij. lia.
Qed.

Lemma length_numbers_below (n : N) : length (numbers_below n) = N.to_nat n.
Proof. unfold numbers_below. by rewrite length_fmap, length_seq. Qed.

(** A list of distinct [unsigned]s that is no longer than [UINT_MAX] cannot
    hold every [unsigned]. *)
Lemma not_all_listed (l : list N) :
  NoDup l → N.of_nat (length l) ≤ UINT_MAX →
  ¬ (∀ k, k ≤ UINT_MAX → k ∈ l).
Proof.
  intros Hnd Hlen Hall.
  assert (numbers_below (UINT_MAX + 1) ⊆+ l) as Hsub.
  { apply NoDup_submseteq; [apply NoDup_numbers_below|].
    intros x Hx%elem_of_numbers_below. apply Hall. lia. }
  apply submseteq_length in Hsub. rewrite length_numbers_below in Hsub. lia.
Qed.

(** ** The catch-up loop *)

Lemma catch_up_S (fuel : nat) (next : N) (s : gset N) :
  catch_up (S fuel) (mkTracker next s) =
  if decide (next ∈ s)
  then catch_up fuel (mkTracker (uint_succ next) (s ∖ {[next]}))
  else mkTracker next s.
Proof. simpl. unfold set_erase. by destruct (decide (next ∈ s)). Qed.

Lemma size_erase (x : N) (s : gset N) : x ∈ s → size s = S (size (s ∖ {[x]})).
Proof.
  intros Hin. rewrite (union_difference_L {[x]} s) at 1 by (by apply singleton_subseteq_l).
  rewrite size_union by (by apply disjoint_difference_r1). by rewrite size_singleton.
Qed.

Section catch_up_loop.

Variable I : ContiguousNumberTracker → Prop.
Hypothesis I_body : ∀ next s,
  I (mkTracker next s) → next ∈ s →
  I (mkTracker (uint_succ next) (s ∖ {[next]})).

(** The rule of the [while] loop: with more fuel than the set has elements
    the loop ends because [erase] finds nothing to remove, and an invariant
    of its body holds at that point. *)
Lemma catch_up_while (fuel : nat) (t : ContiguousNumberTracker) :
  (size (receivedOutOfOrder t) < fuel)%nat → I t →
  I (catch_up fuel t) ∧
  nextExpectedNumber (catch_up fuel t) ∉ receivedOutOfOrder (catch_up fuel t).
Proof.
  revert t. induction fuel as [|fuel IH]; intros [next s] Hsz Ht.
  - simpl in Hsz. lia.
  - rewrite catch_up_S. simpl in Hsz.
    destruct (decide (next ∈ s)) as [Hin|Hout]; [|done].
    apply IH; [|by apply I_body].
    simpl. pose proof (size_erase next s Hin). lia.
Qed.

End catch_up_loop.

Arguments catch_up : simpl never.

(** With enough fuel the result of the loop does not depend on the fuel. *)
Lemma catch_up_fuel (fuel fuel' : nat) (t : ContiguousNumberTracker) :
  (size (receivedOutOfOrder t) < fuel)%nat →
  (size (receivedOutOfOrder t) < fuel')%nat →
  catch_up fuel t = catch_up fuel' t.
Proof.
  revert fuel' t. induction fuel as [|fuel IH]; intros fuel' [next s] H1 H2.
  - simpl in H1. lia.
  - destruct fuel' as [|fuel']; [simpl in H2; lia|].
    rewrite !catch_up_S. simpl in H1, H2.
    destruct (decide (next ∈ s)) as [Hin|Hout]; [|done].
    pose proof (size_erase next s Hin). apply IH; simpl; lia.
Qed.

(** ** The tracker while some number is still unfinished *)

Lemma frontier_next_fresh lo k D t : frontier lo k D t → nextExpectedNumber t ∉ D.
Proof.
  intros [[_ _ _ Hq _] Hex] Hin. apply Hex, Hq; [lia|done].
Qed.

Lemma frontier_weaken lo lo' k D t : lo' ≤ lo → frontier lo k D t → frontier lo' k D t.
Proof.
  intros Hlo [[Hf Hb Hlow Hq Hs] Hex]. split; [split|]; try done. lia.
Qed.

Lemma frontier_new k : frontier 0 k ∅ tracker_new.
Proof.
  split; [split|]; simpl.
  - lia.
  - lia.
  - intros x Hx. lia.
  - intros x _ Hx. by apply not_elem_of_empty in Hx.
  - done.
  - apply not_elem_of_empty.
Qed.

Lemma frontier_loop_body lo k D next s :
  k ≤ UINT_MAX → k ∉ D →
  frontier_loop lo k D (mkTracker next s) → next ∈ s →
  frontier_loop lo k D (mkTracker (uint_succ next) (s ∖ {[next]})).
Proof.
  intros Hk HkD [Hf Hb Hlow Hq Hs] Hin; simpl in *.
  assert (next ∈ D) as HnD by (by apply Hs).
  assert (next ≠ k) as Hne by (by intros ->).
  rewrite uint_succ_small by lia. split; simpl.
  - lia.
  - lia.
  - intros x Hx. destruct (decide (x = next)) as [->|]; [done|]. apply Hlow. lia.
  - intros x Hx HxD. apply elem_of_difference. split; [apply Hq; [lia|done]|].
    apply not_elem_of_singleton. lia.
  - intros x [Hx _]%elem_of_difference. by apply Hs.
Qed.

(** One call of [finish], for a number other than [k]: the invariant is
    kept and the counter does not go back. *)
Lemma frontier_finish lo k D n t :
  k ≤ UINT_MAX → k ∉ D → n ≠ k →
  frontier lo k D t →
  frontier (nextExpectedNumber t) k ({[n]} ∪ D) (snd (finish n t)).
Proof.
  intros Hk HkD Hnk Ht. pose proof (frontier_next_fresh _ _ _ _ Ht) as Hfresh.
  destruct Ht as [[Hf Hb Hlow Hq Hs] Hex]. destruct t as [next s]; simpl in *.
  assert (k ∉ ({[n]} ∪ D : gset N)) as HkD'.
  { intros [Hx%elem_of_singleton|Hx]%elem_of_union; auto. }
  unfold finish; simpl. destruct (N.eqb_spec n next) as [->|Hne]; simpl.
  - destruct (catch_up_while (frontier_loop next k ({[next]} ∪ D)))
      with (fuel := S (size s)) (t := mkTracker (uint_succ next) s)
      as [Hl Hx]; simpl; try lia.
    + intros nx sx. by apply frontier_loop_body.
    + rewrite uint_succ_small by lia. split; simpl.
      * lia.
      * lia.
      * intros x Hx. apply elem_of_union.
        destruct (decide (x = next)) as [->|]; [left; by apply elem_of_singleton|].
        right. apply Hlow. lia.
      * intros x Hx [HxD%elem_of_singleton|HxD]%elem_of_union; [lia|].
        apply Hq; [lia|done].
      * intros x Hx. apply elem_of_union_r. by apply Hs.
    + by split.
  - split; [split|]; simpl.
    + lia.
    + done.
    + intros x Hx. apply elem_of_union_r, Hlow, Hx.
    + intros x Hx [HxD|HxD]%elem_of_union; [by apply elem_of_union_l|].
      apply elem_of_union_r, Hq; done.
    + intros x [Hx|Hx]%elem_of_union; [by apply elem_of_union_l|].
      apply elem_of_union_r. by apply Hs.
    + intros [Hx%elem_of_singleton|Hx]%elem_of_union; [by apply Hne|by apply Hex].
Qed.

Lemma frontier_finish_all lo k l t D :
  k ≤ UINT_MAX → k ∉ l → k ∉ D →
  frontier lo k D t → frontier lo k (list_to_set l ∪ D) (finish_all l t).
Proof.
  intros Hk. revert t D. induction l as [|n l IH]; intros t D Hkl HkD Ht; simpl.
  - by rewrite (left_id_L ∅ (∪)).
  - apply not_elem_of_cons in Hkl as [Hkn Hkl].
    replace ({[n]} ∪ list_to_set l ∪ D) with (list_to_set l ∪ ({[n]} ∪ D))
      by (rewrite (assoc_L (∪)), (comm_L (∪) (list_to_set l)); done).
    apply IH; [done| |].
    + intros [Hx%elem_of_singleton|Hx]%elem_of_union; auto.
    + apply frontier_weaken with (nextExpectedNumber t); [by destruct Ht as [[]]|].
      apply frontier_finish with lo; auto.
Qed.

(** After any sequence of [finish] calls the counter stands at the least
    number that was not finished, whenever that number is an [unsigned]. *)
Lemma finish_all_first_gap (k : N) (l : list N) :
  k ≤ UINT_MAX → k ∉ l → (∀ j, j < k → j ∈ l) →
  nextExpectedNumber (finish_all l tracker_new) = k.
Proof.
  intros Hk Hkl Hall.
  destruct (frontier_finish_all 0 k l tracker_new ∅ Hk Hkl)
    as [[Hf Hb Hlow Hq Hs] Hex]; [apply not_elem_of_empty|apply frontier_new|].
  destruct (decide (nextExpectedNumber (finish_all l tracker_new) = k)) as [|Hne]; [done|].
  exfalso. apply Hex, Hq; [lia|]. apply elem_of_union_l, elem_of_list_to_set, Hall. lia.
Qed.

(** ** The tracker in any state *)

Lemma finish_fst (n : N) (t : ContiguousNumberTracker) :
  fst (finish n t) = nextExpectedNumber (snd (finish n t)).
Proof. reflexivity. Qed.

Lemma finish_exit (n : N) (t : ContiguousNumberTracker) :
  nextExpectedNumber t ∉ receivedOutOfOrder t →
  nextExpectedNumber (snd (finish n t)) ∉ receivedOutOfOrder (snd (finish n t)).
Proof.
  intros Hex. destruct t as [next s]; simpl in *. unfold finish; simpl.
  destruct (N.eqb_spec n next) as [->|Hne]; simpl.
  - apply (catch_up_while (fun _ => True)); simpl; auto.
  - intros [Hx%elem_of_singleton|Hx]%elem_of_union; [by apply Hne|by apply Hex].
Qed.

Lemma finish_range (n : N) (t : ContiguousNumberTracker) :
  nextExpectedNumber t ≤ UINT_MAX →
  nextExpectedNumber (snd (finish n t)) ≤ UINT_MAX.
Proof.
  intros Hr. destruct t as [next s]; simpl in *. unfold finish; simpl.
  destruct (N.eqb_spec n next) as [->|Hne]; simpl; [|done].
  apply (catch_up_while (fun t => nextExpectedNumber t ≤ UINT_MAX)); simpl.
  - intros nx sx _ _. apply uint_succ_range.
  - lia.
  - apply uint_succ_range.
Qed.

Lemma finish_all_exit (l : list N) :
  nextExpectedNumber (finish_all l tracker_new)
    ∉ receivedOutOfOrder (finish_all l tracker_new).
Proof.
  induction l as [|n l IH] using rev_ind; [apply not_elem_of_empty|].
  unfold finish_all. rewrite foldl_app. simpl. by apply finish_exit.
Qed.

Lemma finish_all_range (l : list N) :
  nextExpectedNumber (finish_all l tracker_new) ≤ UINT_MAX.
Proof.
  induction l as [|n l IH] using rev_ind; [simpl; lia|].
  unfold finish_all. rewrite foldl_app. simpl. by apply finish_range.
Qed.

(** ** The tracker when no number is finished twice *)

Lemma discipline_loop_body (D : gset N) next s :
  (∀ x, x ∈ D → x ≤ UINT_MAX) →
  discipline_loop D (mkTracker next s) → next ∈ s →
  discipline_loop D (mkTracker (uint_succ next) (s ∖ {[next]})).
Proof.
  intros HD [Hlow Hq|Hz He Hall] Hin; simpl in *.
  2: { rewrite He in Hin. by apply not_elem_of_empty in Hin. }
  assert (next ∈ D ∧ next ≤ UINT_MAX) as [HnD Hn].
  { apply Hq in Hin as [? _]. auto. }
  destruct (decide (next = UINT_MAX)) as [->|Hne].
  - apply dl_wrapped; simpl.
    + reflexivity.
    + apply set_eq. intros x. rewrite elem_of_difference, Hq, not_elem_of_singleton.
      split; [|by intros ?%not_elem_of_empty].
      intros [[HxD Hx] Hxn]. apply HD in HxD. lia.
    + intros x Hx. destruct (decide (x = UINT_MAX)) as [->|]; [done|]. apply Hlow. lia.
  - rewrite uint_succ_small by lia. apply dl_running; simpl.
    + intros x Hx. destruct (decide (x = next)) as [->|]; [done|]. apply Hlow. lia.
    + intros x. rewrite elem_of_difference, Hq, not_elem_of_singleton. intuition lia.
Qed.

Lemma discipline_finish (D : gset N) n t :
  (∀ x, x ∈ D → x ≤ UINT_MAX) → n ≤ UINT_MAX → n ∉ D →
  discipline D t → discipline ({[n]} ∪ D) (snd (finish n t)).
Proof.
  intros HD Hn HnD [Hlow Hfresh Hq|Hz He Hall]; [|exfalso; auto].
  destruct t as [next s]; simpl in *. unfold finish; simpl.
  assert (∀ x, x ∈ ({[n]} ∪ D : gset N) → x ≤ UINT_MAX) as HD'.
  { intros x [->%elem_of_singleton|Hx]%elem_of_union; auto. }
  destruct (N.eqb_spec n next) as [->|Hne]; simpl.
  - destruct (catch_up_while (discipline_loop ({[next]} ∪ D)))
      with (fuel := S (size s)) (t := mkTracker (uint_succ next) s)
      as [Hl Hx]; simpl; try lia.
    + intros nx sx. by apply discipline_loop_body.
    + destruct (decide (next = UINT_MAX)) as [->|Hmax].
      * apply dl_wrapped; simpl; [reflexivity| |].
        -- apply set_eq. intros x. rewrite Hq. split; [|by intros ?%not_elem_of_empty].
           intros [HxD Hx]. apply HD in HxD. lia.
        -- intros x Hx. apply elem_of_union.
           destruct (decide (x = UINT_MAX)) as [->|]; [left; by apply elem_of_singleton|].
           right. apply Hlow. lia.
      * rewrite uint_succ_small by lia. apply dl_running; simpl.
        -- intros x Hx. apply elem_of_union.
           destruct (decide (x = next)) as [->|]; [left; by apply elem_of_singleton|].
           right. apply Hlow. lia.
        -- intros x. rewrite Hq, elem_of_union, elem_of_singleton. intuition lia.
    + destruct Hl as [Hlow' Hq'|Hz He Hall]; [|by apply di_saturated].
      apply di_normal; [done| |].
      * intros HinD. apply Hx, Hq'. split; [done|lia].
      * intros x. rewrite Hq'. split; [|intros [? ?]; split; [done|lia]].
        intros [HxD Hle]. split; [done|].
        apply N.le_lteq in Hle as [Hlt| <-]; [done|].
        exfalso. apply Hx, Hq'. split; [done|lia].
  - apply di_normal; simpl.
    + intros x Hx. apply elem_of_union_r, Hlow, Hx.
    + intros [Hx%elem_of_singleton|Hx]%elem_of_union; [by apply Hne|by apply Hfresh].
    + intros x. rewrite !elem_of_union, Hq, elem_of_singleton.
      split; [|intuition lia]. intros [->|[? ?]]; [|auto]. split; [auto|].
      destruct (decide (n < next)) as [Hlt|]; [|lia]. by apply Hlow in Hlt.
Qed.

Lemma discipline_finish_all (l : list N) :
  NoDup l → (∀ x, x ∈ l → x ≤ UINT_MAX) →
  discipline (list_to_set l) (finish_all l tracker_new).
Proof.
  induction l as [|n l IH] using rev_ind; intros Hnd Hb.
  - apply di_normal; simpl.
    + intros x Hx. lia.
    + apply not_elem_of_empty.
    + intros x. split; [by intros ?%not_elem_of_empty|by intros [?%not_elem_of_empty _]].
  - apply NoDup_app in Hnd as (Hnd & Hdisj & _).
    unfold finish_all. rewrite foldl_app. simpl.
    replace (list_to_set (l ++ [n]) : gset N) with ({[n]} ∪ list_to_set l : gset N).
    2: { rewrite list_to_set_app_L. simpl. by rewrite (right_id_L ∅ (∪)), (comm_L (∪)). }
    apply discipline_finish.
    + intros x Hx%elem_of_list_to_set. apply Hb, elem_of_app. by left.
    + apply Hb, elem_of_app. right. by apply list_elem_of_singleton.
    + intros Hin%elem_of_list_to_set. apply (Hdisj n Hin). by apply list_elem_of_singleton.
    + apply IH; [done|]. intros x Hx. apply Hb, elem_of_app. by left.
Qed.

(** Under the discipline the set holds only numbers above the counter. *)
Lemma discipline_queue_above (D : gset N) (t : ContiguousNumberTracker) :
  discipline D t →
  ∀ x, x ∈ receivedOutOfOrder t → nextExpectedNumber t < x.
Proof.
  intros [Hlow Hfresh Hq|Hz He Hall] x Hx.
  - by apply Hq in Hx as [_ ?].
  - rewrite He in Hx. by apply not_elem_of_empty in Hx.
Qed.

(** Under the discipline a number not yet finished is not below the counter. *)
Lemma discipline_fresh_not_below (D : gset N) (t : ContiguousNumberTracker) (n : N) :
  discipline D t → n ∉ D → ¬ n < nextExpectedNumber t.
Proof.
  intros [Hlow Hfresh Hq|Hz He Hall] HnD Hlt.
  - by apply HnD, Hlow.
  - lia.
Qed.

(** The boundary of the [unsigned] counter: once every [unsigned] has been
    finished, each once, the counter has wrapped around to 0. *)
Lemma finish_all_saturated (l : list N) :
  NoDup l → (∀ x, x ∈ l ↔ x ≤ UINT_MAX) →
  nextExpectedNumber (finish_all l tracker_new) = 0.
Proof.
  intros Hnd Hall.
  destruct (discipline_finish_all l Hnd) as [Hlow Hfresh Hq|Hz He Hsat]; [|exfalso|done].
  - intros x Hx. by apply Hall.
  - apply Hfresh, elem_of_list_to_set, Hall, finish_all_range.
Qed.

(** The same boundary on one call. *)
Example finish_wraps :
  finish UINT_MAX (mkTracker UINT_MAX ∅) = (0, mkTracker 0 ∅).
Proof. vm_compute. reflexivity. Qed.

Lemma finish_all_snoc (l : list N) (n : N) (t : ContiguousNumberTracker) :
  snd (finish n (finish_all l t)) = finish_all (l ++ [n]) t.
Proof. unfold finish_all. by rewrite foldl_app. Qed.

Lemma elem_of_all_unsigned (x : N) : x ∈ numbers_below (UINT_MAX + 1) ↔ x ≤ UINT_MAX.
Proof. rewrite elem_of_numbers_below. lia. Qed.

Lemma elem_of_all_unsigned_snoc (x : N) :
  x ∈ numbers_below UINT_MAX ++ [UINT_MAX] ↔ x ≤ UINT_MAX.
Proof.
  rewrite elem_of_app, elem_of_numbers_below, list_elem_of_singleton. lia.
Qed.

Lemma NoDup_all_unsigned : NoDup (numbers_below UINT_MAX ++ [UINT_MAX]).
Proof.
  apply NoDup_app. split; [apply NoDup_numbers_below|]. split.
  - intros x Hx%elem_of_numbers_below Hx'%list_elem_of_singleton. lia.
  - apply NoDup_singleton.
Qed.

(** ** Claims about the tracker *)

(** C1, as the code has it.  Let [n] be at most [UINT_MAX], the largest
    [unsigned], and let the calls [finish(0)], ..., [finish(n-1)] be made on
    a fresh tracker in any order: afterwards [nextExpectedNumber] is [n].  If
    instead the calls made are those of a strict subset of [{0, ..., n-1}]
    (each number once), and [k] is the first index the subset misses (so in
    particular when [k] is the only one it misses), afterwards
    [nextExpectedNumber] is [k]. *)
Theorem finish_permutation_frontier (n : N) (l : list N) :
  (n ≤ UINT_MAX → l ≡ₚ numbers_below n →
   nextExpectedNumber (finish_all l tracker_new) = n) ∧
  (n ≤ UINT_MAX + 1 →
   ∀ k, NoDup l → (∀ x, x ∈ l → x < n) → k < n → k ∉ l → (∀ j, j < k → j ∈ l) →
        nextExpectedNumber (finish_all l tracker_new) = k).
Proof.
  split.
  - intros Hn Hperm. apply finish_all_first_gap; [done| |].
    + rewrite Hperm, elem_of_numbers_below. lia.
    + intros j Hj. rewrite Hperm. by apply elem_of_numbers_below.
  - intros Hn k _ _ Hk Hkl Hall. apply finish_all_first_gap; [lia|done|done].
Qed.

Lemma finish_permutation_frontier_witness :
  ([2; 0; 3; 1] ≡ₚ numbers_below 4 ∧
   nextExpectedNumber (finish_all [2; 0; 3; 1] tracker_new) = 4) ∧
  ((1 ∉ [3; 0; 2]) ∧ nextExpectedNumber (finish_all [3; 0; 2] tracker_new) = 1).
Proof.
  assert (4 ≤ UINT_MAX) as Hle by (unfold UINT_MAX; lia).
  assert (4 ≤ UINT_MAX + 1) as Hle' by (unfold UINT_MAX; lia).
  assert ([2; 0; 3; 1] ≡ₚ numbers_below 4) as Hperm.
  { change (numbers_below 4) with [0; 1; 2; 3].
    apply (bool_decide_unpack _). vm_compute. exact I. }
  assert (1 ∉ [3; 0; 2]) as Hmiss.
  { intros Hin. repeat (apply elem_of_cons in Hin as [Hin|Hin]; [discriminate Hin|]).
    by apply elem_of_nil in Hin. }
  destruct (finish_permutation_frontier 4 [2; 0; 3; 1]) as [Hall _].
  destruct (finish_permutation_frontier 4 [3; 0; 2]) as [_ Hgap].
  split; (split; [done|]).
  - by apply Hall.
  - apply Hgap; [done| | |lia|done|].
    + apply (bool_decide_unpack _). vm_compute. exact I.
    + intros x Hx. repeat (apply elem_of_cons in Hx as [->|Hx]; [lia|]).
      by apply elem_of_nil in Hx.
    + intros j Hj. assert (j = 0) as -> by lia.
      apply elem_of_cons. right. apply elem_of_cons. by left.
Defined.

(** C1, as stated, fails for [n = 2^32]: the calls [finish(0)], ...,
    [finish(2^32 - 1)] are all calls the tracker can receive, and after them
    the 32-bit counter has wrapped around to 0; it cannot hold [2^32]. *)
Lemma finish_all_unsigned_wraps :
  nextExpectedNumber (finish_all (numbers_below (UINT_MAX + 1)) tracker_new) = 0 ∧
  nextExpectedNumber (finish_all (numbers_below (UINT_MAX + 1)) tracker_new)
    ≠ UINT_MAX + 1.
Proof.
  pose proof (finish_all_saturated (numbers_below (UINT_MAX + 1))
                (NoDup_numbers_below (UINT_MAX + 1)) elem_of_all_unsigned) as Hz.
  split; [exact Hz|]. rewrite Hz. unfold UINT_MAX. lia.
Qed.

(** C5, as the code has it.  A call [finish(n)] with [n] below the current
    [nextExpectedNumber] is not a no-op: it leaves [nextExpectedNumber] as it
    is and inserts [n] into [receivedOutOfOrder].  Under the call discipline
    of the pipeline (every number an [unsigned], none finished twice) no such
    call occurs, and [receivedOutOfOrder] never holds an index below, or equal
    to, [nextExpectedNumber]. *)
Theorem finish_stale_is_recorded (l : list N) (n : N) :
  (∀ t, n < nextExpectedNumber t →
        finish n t =
        (nextExpectedNumber t,
         mkTracker (nextExpectedNumber t) ({[n]} ∪ receivedOutOfOrder t))) ∧
  (NoDup l → (∀ x, x ∈ l → x ≤ UINT_MAX) →
   ∀ x, x ∈ receivedOutOfOrder (finish_all l tracker_new) →
        nextExpectedNumber (finish_all l tracker_new) < x) ∧
  (NoDup (l ++ [n]) → (∀ x, x ∈ l ++ [n] → x ≤ UINT_MAX) →
   ¬ n < nextExpectedNumber (finish_all l tracker_new)).
Proof.
  split; [|split].
  - intros t Hlt. unfold finish.
    destruct (N.eqb_spec n (nextExpectedNumber t)) as [Heq|Hne]; [lia|done].
  - intros Hnd Hb. by apply (discipline_queue_above (list_to_set l)), discipline_finish_all.
  - intros Hnd Hb. apply NoDup_app in Hnd as (Hnd & Hdisj & _).
    apply (discipline_fresh_not_below (list_to_set l)).
    + apply discipline_finish_all; [done|]. intros x Hx. apply Hb, elem_of_app. by left.
    + intros Hin%elem_of_list_to_set. apply (Hdisj n Hin). by apply list_elem_of_singleton.
Qed.

Lemma finish_stale_is_recorded_witness :
  finish 1 (mkTracker 3 ∅) = (3, mkTracker 3 ({[1]} ∪ ∅)) ∧
  (∀ x, x ∈ receivedOutOfOrder (finish_all [0; 3; 5] tracker_new) → 1 < x) ∧
  ¬ 4 < nextExpectedNumber (finish_all [0; 3; 5] tracker_new).
Proof.
  assert (NoDup ([0; 3; 5] ++ [4])) as Hnd.
  { apply (bool_decide_unpack _). vm_compute. exact I. }
  assert (∀ x, x ∈ [0; 3; 5] ++ [4] → x ≤ UINT_MAX) as Hb.
  { intros x Hx. unfold UINT_MAX. simpl in Hx.
    repeat (apply elem_of_cons in Hx as [->|Hx]; [lia|]). by apply elem_of_nil in Hx. }
  destruct (finish_stale_is_recorded [0; 3; 5] 1) as (Hstale & _ & _).
  destruct (finish_stale_is_recorded [0; 3; 5] 4) as (_ & Hqueue & Hfresh).
  split; [|split].
  - apply (Hstale (mkTracker 3 ∅)). simpl. lia.
  - apply Hqueue.
    + by apply NoDup_app in Hnd as (? & _).
    + intros x Hx. apply Hb, elem_of_app. by left.
  - by apply Hfresh.
Defined.

(** C5, as stated, fails: after [finish(0)] on a fresh tracker the counter
    is 1; a second [finish(0)] changes the tracker, and [receivedOutOfOrder]
    then holds 0, an index below [nextExpectedNumber]. *)
Lemma finish_stale_not_noop :
  0 < nextExpectedNumber (finish_all [0] tracker_new) ∧
  snd (finish 0 (finish_all [0] tracker_new)) ≠ finish_all [0] tracker_new ∧
  0 ∈ receivedOutOfOrder (snd (finish 0 (finish_all [0] tracker_new))) ∧
  0 < nextExpectedNumber (snd (finish 0 (finish_all [0] tracker_new))).
Proof.
  assert (finish_all [0] tracker_new = mkTracker 1 ∅) as -> by (vm_compute; reflexivity).
  assert (finish 0 (mkTracker 1 ∅) = (1, mkTracker 1 {[0]})) as ->
    by (vm_compute; reflexivity).
  simpl. split; [lia|]. split; [|split; [|lia]].
  - intros Heq. apply (f_equal receivedOutOfOrder) in Heq. simpl in Heq.
    assert (0 ∈ (∅ : gset N)) as Hin by (rewrite <- Heq; by apply elem_of_singleton).
    by apply not_elem_of_empty in Hin.
  - by apply elem_of_singleton.
Qed.

(** C10, as the code has it.  Under the call discipline of the pipeline
    (every number an [unsigned], none finished twice), when a call of
    [finish] returns, the value returned is the [nextExpectedNumber] field
    and [nextExpectedNumber] is not a member of [receivedOutOfOrder]; and as
    long as the calls made so far, this one included, are no more than
    [UINT_MAX], [nextExpectedNumber] is at least what it was before the
    call. *)
Theorem finish_returns_frontier (l : list N) (n : N) :
  NoDup (l ++ [n]) → (∀ x, x ∈ l ++ [n] → x ≤ UINT_MAX) →
  fst (finish n (finish_all l tracker_new)) =
    nextExpectedNumber (snd (finish n (finish_all l tracker_new))) ∧
  (nextExpectedNumber (snd (finish n (finish_all l tracker_new)))
     ∉ receivedOutOfOrder (snd (finish n (finish_all l tracker_new)))) ∧
  (N.of_nat (length (l ++ [n])) ≤ UINT_MAX →
   nextExpectedNumber (finish_all l tracker_new) ≤
     nextExpectedNumber (snd (finish n (finish_all l tracker_new)))).
Proof.
  intros Hnd Hb. split; [apply finish_fst|]. split; [apply finish_exit, finish_all_exit|].
  intros Hlen.
  destruct (decide (nextExpectedNumber (finish_all l tracker_new) ≤
    nextExpectedNumber (snd (finish n (finish_all l tracker_new))))) as [|Hback]; [done|].
  exfalso. apply (not_all_listed (l ++ [n]) Hnd Hlen). intros k Hk.
  destruct (decide (k ∈ l ++ [n])) as [|Hout]; [done|]. exfalso. apply Hback.
  apply not_elem_of_app in Hout as [Hkl Hkn].
  assert (n ≠ k) as Hne by (intros ->; apply Hkn; by apply list_elem_of_singleton).
  pose proof (frontier_finish_all 0 k l tracker_new ∅ Hk Hkl
                (not_elem_of_empty k) (frontier_new k)) as Hl.
  apply (frontier_finish _ k _ n) in Hl; [|done| |done].
  - by destruct Hl as [[Hfrom _ _ _ _] _].
  - intros [Hx%elem_of_list_to_set|Hx%not_elem_of_empty]%elem_of_union; auto.
Qed.

Lemma finish_returns_frontier_witness :
  fst (finish 1 (finish_all [0; 2] tracker_new)) = 3 ∧
  nextExpectedNumber (finish_all [0; 2] tracker_new) ≤
    nextExpectedNumber (snd (finish 1 (finish_all [0; 2] tracker_new))).
Proof.
  assert (NoDup ([0; 2] ++ [1])) as Hnd.
  { apply (bool_decide_unpack _). vm_compute. exact I. }
  assert (∀ x, x ∈ [0; 2] ++ [1] → x ≤ UINT_MAX) as Hb.
  { intros x Hx. unfold UINT_MAX. simpl in Hx.
    repeat (apply elem_of_cons in Hx as [->|Hx]; [lia|]). by apply elem_of_nil in Hx. }
  destruct (finish_returns_frontier [0; 2] 1 Hnd Hb) as (Hret & _ & Hmono).
  split.
  - rewrite Hret. vm_compute. reflexivity.
  - apply Hmono. unfold UINT_MAX. simpl. lia.
Defined.

(** C10, as stated, fails on the call that finishes the last [unsigned]:
    the numbers 0, ..., [UINT_MAX - 1] and then [UINT_MAX] are finished once
    each, the counter stands at [UINT_MAX] before the last call and at 0
    after it. *)
Lemma finish_last_unsigned_goes_back :
  NoDup (numbers_below UINT_MAX ++ [UINT_MAX]) ∧
  Forall (fun x => x ≤ UINT_MAX) (numbers_below UINT_MAX ++ [UINT_MAX]) ∧
  nextExpectedNumber (finish_all (numbers_below UINT_MAX) tracker_new) = UINT_MAX ∧
  nextExpectedNumber
    (snd (finish UINT_MAX (finish_all (numbers_below UINT_MAX) tracker_new))) = 0 ∧
  ¬ nextExpectedNumber (finish_all (numbers_below UINT_MAX) tracker_new) ≤
    nextExpectedNumber
      (snd (finish UINT_MAX (finish_all (numbers_below UINT_MAX) tracker_new))).
Proof.
  assert (nextExpectedNumber (finish_all (numbers_below UINT_MAX) tracker_new)
          = UINT_MAX) as Hbefore.
  { apply finish_all_first_gap.
    - lia.
    - intros Hin%elem_of_numbers_below. lia.
    - intros j Hj. by apply elem_of_numbers_below. }
  assert (nextExpectedNumber
            (snd (finish UINT_MAX (finish_all (numbers_below UINT_MAX) tracker_new)))
          = 0) as Hafter.
  { rewrite finish_all_snoc.
    apply finish_all_saturated; [apply NoDup_all_unsigned|apply elem_of_all_unsigned_snoc]. }
  split; [apply NoDup_all_unsigned|]. split; [|split; [exact Hbefore|split; [exact Hafter|]]].
  - apply Forall_forall. intros x Hx. by apply elem_of_all_unsigned_snoc.
  - rewrite Hbefore, Hafter. unfold UINT_MAX. lia.
Qed.

(** ** The loop of trim_trace, for any implementation of CallSet *)

Arguments finish : simpl never.

Section trim_properties.

Context {CallSet : Type} `{!CallSetOps CallSet}.
Variable CALL_FLAG_END_FRAME : N.
Variable trimExtension : string → string.

Local Abbreviation body := (loop_body CALL_FLAG_END_FRAME).
Local Abbreviation loop := (trim_loop CALL_FLAG_END_FRAME).
Local Abbreviation trim := (trim_trace CALL_FLAG_END_FRAME trimExtension).

(** The loop body, component by component. *)
Lemma loop_body_eq (o : trim_options) (c : Call) (st : LoopState) :
  body o c st =
  (mkLoop (if call_selected o (frame st) c then writer st ++ [c] else writer st)
          (if ends_frame CALL_FLAG_END_FRAME c then uint_succ (frame st) else frame st)
          (snd (finish (no c) (callNumberTracker st))),
   past_last o (fst (finish (no c) (callNumberTracker st)))
             (if ends_frame CALL_FLAG_END_FRAME c then uint_succ (frame st) else frame st)).
Proof. unfold loop_body. by destruct (finish (no c) (callNumberTracker st)). Qed.

Lemma trim_loop_parsed (o : trim_options) (c : Call) (rest : Parser) (st : LoopState) :
  loop o (Parsed c :: rest) st =
  if snd (body o c st) then (rest, fst (body o c st)) else loop o rest (fst (body o c st)).
Proof. simpl. by destruct (body o c st) as [st' []]. Qed.

(** The loop, turn by turn, in terms of [parse_call]: a null result ends
    it, a call goes through the body. *)
Lemma trim_loop_parse_call (o : trim_options) (p : Parser) (st : LoopState) :
  loop o p st =
  match parse_call p with
  | (Some c, rest) =>
      if snd (body o c st) then (rest, fst (body o c st))
      else loop o rest (fst (body o c st))
  | (None, rest) => (rest, st)
  end.
Proof.
  destruct p as [|[c|] rest]; [done| |done]. apply trim_loop_parsed.
Qed.

Lemma past_last_true (o : trim_options) (nextExpectedCall f : N) :
  past_last o nextExpectedCall f = true ↔
  (empty (calls o) = true ∨ getLast (calls o) < nextExpectedCall) ∧
  (empty (frames o) = true ∨ getLast (frames o) < f).
Proof.
  unfold past_last. by rewrite andb_true_iff, !orb_true_iff, !N.ltb_lt.
Qed.

Lemma call_selected_true (o : trim_options) (f : N) (c : Call) :
  call_selected o f c = true ↔
  (thread o = (-1)%Z ∨ thread_id c = uint_of_int (thread o)) ∧
  (contains (calls o) (no c) (flags c) = true ∨ contains (frames o) f (flags c) = true).
Proof.
  unfold call_selected, thread_selected.
  by rewrite andb_true_iff, !orb_true_iff, Z.eqb_eq, N.eqb_eq.
Qed.

Lemma ends_frame_true (c : Call) :
  ends_frame CALL_FLAG_END_FRAME c = true ↔ N.land (flags c) CALL_FLAG_END_FRAME ≠ 0.
Proof. unfold ends_frame. by rewrite negb_true_iff, N.eqb_neq. Qed.

Lemma loop_body_in_range (o : trim_options) (c : Call) (st : LoopState) :
  in_range_state st → in_range_state (fst (body o c st)).
Proof.
  intros [Hf Ht]. rewrite loop_body_eq. split; cbn [fst frame callNumberTracker].
  - destruct (ends_frame _ c); [apply uint_succ_range|done].
  - by apply finish_range.
Qed.

Lemma loop_body_unbounded (o : trim_options) (c : Call) (st : LoopState) :
  unbounded (calls o) ∨ unbounded (frames o) →
  in_range_state st → snd (body o c st) = false.
Proof.
  intros Hunb Hst. pose proof (loop_body_in_range o c st Hst) as [Hf Ht].
  rewrite loop_body_eq in *. cbn [fst snd frame callNumberTracker] in *.
  apply not_true_is_false. rewrite past_last_true. intros [Hc Hfr].
  rewrite finish_fst in Hc.
  destruct Hunb as [[He Hl]|[He Hl]]; [destruct Hc as [Hc|Hc]|destruct Hfr as [Hfr|Hfr]];
    try congruence; lia.
Qed.

Lemma trim_loop_unbounded (o : trim_options) (p : Parser) (st : LoopState) :
  unbounded (calls o) ∨ unbounded (frames o) →
  in_range_state st →
  loop o p st = (after_null p, run_all CALL_FLAG_END_FRAME o (parsed_calls p) st).
Proof.
  intros Hunb. revert st. induction p as [|[c|] rest IH]; intros st Hst; [done| |done].
  rewrite trim_loop_parsed, loop_body_unbounded by done. simpl.
  apply IH. by apply loop_body_in_range.
Qed.

Lemma loop_start_in_range : in_range_state loop_start.
Proof. split; simpl; unfold UINT_MAX; lia. Qed.

(** A run of the loop stops where the same run on a longer input stops, as
    soon as a null result or a [break] has ended it. *)
Lemma trim_loop_read_failure (o : trim_options) (cs : list Call) (rest : Parser)
    (st : LoopState) :
  snd (loop o ((Parsed <$> cs) ++ ReadFailure :: rest) st) =
  snd (loop o (Parsed <$> cs) st).
Proof.
  revert st. induction cs as [|c cs IH]; intros st; [done|].
  rewrite !fmap_cons. simpl app. rewrite !trim_loop_parsed.
  destruct (snd (body o c st)); [done|apply IH].
Qed.

(** The writer only grows. *)
Lemma loop_body_writer (o : trim_options) (c : Call) (st : LoopState) :
  writer st `prefix_of` writer (fst (body o c st)).
Proof.
  rewrite loop_body_eq. simpl.
  destruct (call_selected o (frame st) c); [by apply prefix_app_r|done].
Qed.

Lemma trim_loop_writer (o : trim_options) (p : Parser) (st : LoopState) :
  writer st `prefix_of` writer (snd (loop o p st)).
Proof.
  revert st. induction p as [|[c|] rest IH]; intros st; [done| |done].
  rewrite trim_loop_parsed. pose proof (loop_body_writer o c st) as Hw.
  destruct (snd (body o c st)); [done|]. by etrans; [|apply IH].
Qed.

Lemma trim_loop_unread (o : trim_options) (cs : list Call) (rest : Parser)
    (st : LoopState) :
  rest `suffix_of` fst (loop o ((Parsed <$> cs) ++ ReadFailure :: rest) st).
Proof.
  revert st. induction cs as [|c cs IH]; intros st; [done|].
  rewrite fmap_cons. simpl app. rewrite trim_loop_parsed.
  destruct (snd (body o c st)); [|apply IH].
  simpl. apply suffix_app_r, suffix_cons_r. done.
Qed.

Lemma not_snoc_self {A} (l : list A) (x : A) : l ++ [x] ≠ l.
Proof.
  intros Heq. apply (f_equal length) in Heq. rewrite length_app in Heq. simpl in Heq. lia.
Qed.

Lemma loop_body_written (o : trim_options) (c : Call) (st : LoopState) :
  writer (fst (body o c st)) = writer st ++ [c] ↔ call_selected o (frame st) c = true.
Proof.
  rewrite loop_body_eq. cbn [fst writer].
  destruct (call_selected o (frame st) c); split; try done.
  intros Heq. symmetry in Heq. by apply not_snoc_self in Heq.
Qed.

(** ** Claims about the loop *)

(** C2.  At the end of a loop iteration the body ends in [break], so that
    no further event is read, if and only if (the calls set is empty or the
    value [finish] returned for the current event exceeds the calls set's
    [getLast()]) and (the frames set is empty or the frame counter exceeds
    the frames set's [getLast()]); otherwise the loop goes on to the next
    [parse_call].  If a set is unbounded its clause is false in every
    iteration, and if either set is unbounded the loop runs until
    [parse_call] returns null, every event before that having been
    processed. *)
Theorem break_iff_past_last (o : trim_options) (c : Call) (rest : Parser)
    (st : LoopState) :
  (snd (body o c st) = true ↔
     (empty (calls o) = true ∨
      getLast (calls o) < fst (finish (no c) (callNumberTracker st))) ∧
     (empty (frames o) = true ∨
      getLast (frames o) < frame (fst (body o c st)))) ∧
  loop o (Parsed c :: rest) st =
    (if snd (body o c st) then (rest, fst (body o c st))
     else loop o rest (fst (body o c st))) ∧
  (unbounded (calls o) → in_range_state st →
     ¬ (empty (calls o) = true ∨
        getLast (calls o) < fst (finish (no c) (callNumberTracker st)))) ∧
  (unbounded (frames o) → in_range_state st →
     ¬ (empty (frames o) = true ∨
        getLast (frames o) < frame (fst (body o c st)))) ∧
  (unbounded (calls o) ∨ unbounded (frames o) →
     ∀ p, loop o p loop_start =
          (after_null p, run_all CALL_FLAG_END_FRAME o (parsed_calls p) loop_start)).
Proof.
  split; [|split; [|split; [|split]]].
  - rewrite loop_body_eq. cbn [fst snd frame]. apply past_last_true.
  - apply trim_loop_parsed.
  - intros [He Hl] Hst [Hc|Hc]; [congruence|].
    pose proof (loop_body_in_range o c st Hst) as [_ Ht].
    rewrite loop_body_eq in Ht. cbn [fst callNumberTracker] in Ht.
    rewrite finish_fst in Hc. lia.
  - intros [He Hl] Hst [Hc|Hc]; [congruence|].
    pose proof (loop_body_in_range o c st Hst) as [Hf _]. lia.
  - intros Hunb p. apply trim_loop_unbounded; [done|apply loop_start_in_range].
Qed.

(** C3, as the code has it.  An event processed by the loop is written to
    the output if and only if (the thread filter is -1, all threads, or the
    event's [thread_id] equals the filter converted to [unsigned], that is
    modulo [2^32]) and (the calls set contains the event's number or the
    frames set contains the current frame counter, both judged with the
    event's flags); an event that is not written leaves the output as it was.
    For a filter that is not negative the conversion changes nothing and the
    comparison is the equality of the filter and the [thread_id]. *)
Theorem written_iff_selected (o : trim_options) (c : Call) (st : LoopState) :
  (writer (fst (body o c st)) = writer st ++ [c] ↔
     (thread o = (-1)%Z ∨ thread_id c = uint_of_int (thread o)) ∧
     (contains (calls o) (no c) (flags c) = true ∨
      contains (frames o) (frame st) (flags c) = true)) ∧
  (writer (fst (body o c st)) = writer st ++ [c] ∨
   writer (fst (body o c st)) = writer st) ∧
  ((0 ≤ thread o < 2 ^ 32)%Z →
   (thread_id c = uint_of_int (thread o) ↔ Z.of_N (thread_id c) = thread o)).
Proof.
  split; [|split].
  - rewrite <- call_selected_true. apply loop_body_written.
  - rewrite loop_body_eq. cbn [fst writer].
    destruct (call_selected o (frame st) c); auto.
  - intros Hrange. unfold uint_of_int. rewrite Z.mod_small by done. lia.
Qed.

(** C6.  For an event whose flags include the end-of-frame marker the
    frame counter is incremented once by the loop body, whether or not the
    event is written, and the decision to write that event is taken with the
    value the counter had before the increment. *)
Theorem frame_counted_after_selection (o : trim_options) (c : Call) (st : LoopState) :
  N.land (flags c) CALL_FLAG_END_FRAME ≠ 0 →
  frame (fst (body o c st)) = uint_succ (frame st) ∧
  (frame st < UINT_MAX → frame (fst (body o c st)) = frame st + 1) ∧
  (writer (fst (body o c st)) = writer st ++ [c] ↔
     (thread o = (-1)%Z ∨ thread_id c = uint_of_int (thread o)) ∧
     (contains (calls o) (no c) (flags c) = true ∨
      contains (frames o) (frame st) (flags c) = true)).
Proof.
  intros Hflag%ends_frame_true. split; [|split].
  - rewrite loop_body_eq. cbn [fst frame]. by rewrite Hflag.
  - intros Hlt. rewrite loop_body_eq. cbn [fst frame].
    rewrite Hflag. by apply uint_succ_small.
  - rewrite <- call_selected_true. apply loop_body_written.
Qed.

(** C8.  If the input cannot be opened, or the output cannot be created,
    [trim_trace] sends one line to [std::cerr] that names the side that
    failed and its file, returns 1, and never reaches the loop: no event is
    read, tracked or written. *)
Theorem open_failure_aborts (env : Env) (filename : string) (o : trim_options) :
  (open_input env filename = None →
     exit_status (trim env filename o) = 1%Z ∧
     cerr (trim env filename o) = ["error: failed to open " +:+ filename +:+ nl] ∧
     run (trim env filename o) = None ∧
     written_calls (trim env filename o) = []) ∧
  (∀ file, open_input env filename = Some file →
     create_output env (output_file trimExtension filename o)
                   (version file) (properties file) = false →
     exit_status (trim env filename o) = 1%Z ∧
     cerr (trim env filename o) =
       ["error: failed to create " +:+ output_file trimExtension filename o +:+ nl] ∧
     run (trim env filename o) = None ∧
     written_calls (trim env filename o) = []).
Proof.
  split.
  - intros Hopen. unfold trim_trace. by rewrite Hopen.
  - intros file Hopen Hcreate. unfold trim_trace. by rewrite Hopen, Hcreate.
Qed.

(** C9, as the code has it.  If a read fails in mid-stream after some
    events have been processed, [parse_call] returns null and the loop stops
    without reading further; the output holds exactly what the events before
    the failure had written (nothing is rolled back); and [trim_trace] does
    not report the failure: it prints that the trimmed trace is available and
    returns 0, as it does at the end of the input. *)
Theorem read_failure_ends_quietly (env : Env) (filename : string) (o : trim_options)
    (file : TraceFile) (cs : list Call) (rest : Parser) :
  open_input env filename = Some file →
  events file = (Parsed <$> cs) ++ ReadFailure :: rest →
  create_output env (output_file trimExtension filename o)
                (version file) (properties file) = true →
  exit_status (trim env filename o) = 0%Z ∧
  cerr (trim env filename o) =
    ["Trimmed trace is available as " +:+ output_file trimExtension filename o +:+ nl] ∧
  (∃ unread, fst <$> run (trim env filename o) = Some unread ∧ rest `suffix_of` unread) ∧
  written_calls (trim env filename o) =
    writer (snd (loop (with_output o (output_file trimExtension filename o))
                      (Parsed <$> cs) loop_start)).
Proof.
  intros Hopen Hev Hcreate. unfold written_calls, trim_trace.
  rewrite Hopen, Hcreate, Hev. cbn [exit_status cerr run].
  split; [done|]. split; [done|]. split.
  - eexists. split; [reflexivity|]. apply trim_loop_unread.
  - pose proof (trim_loop_read_failure
        (with_output o (output_file trimExtension filename o)) cs rest loop_start) as Heq.
    destruct (loop _ (_ ++ _) _) as [p st]. simpl in Heq. by rewrite <- Heq.
Qed.

End trim_properties.

(** ** The loop with the selection set of the specification *)

Lemma unbounded_select_all : unbounded SelectAll.
Proof. split; [done|]. simpl. unfold selection_getLast. simpl. lia. Qed.

(** A set whose highestSelected() is unbounded is unbounded for trim. *)
Lemma unbounded_highest (s : SelectionSet) :
  highestSelected s = Unbounded → unbounded s.
Proof.
  intros Hh. split.
  - by destruct s.
  - simpl. unfold selection_getLast. rewrite Hh. lia.
Qed.

Lemma highest_max_unbounded_r (h : Highest) : highest_max h Unbounded = Unbounded.
Proof. by destruct h. Qed.

Lemma highest_max_unbounded_l (h : Highest) : highest_max Unbounded h = Unbounded.
Proof. by destruct h. Qed.

(** A set with an open-ended range is unbounded. *)
Lemma unbounded_open_ended (r : CallRange) (rs : list CallRange) :
  Exists (fun r => range_last r = OpenEnded) (r :: rs) →
  unbounded (SelectRanges r rs).
Proof.
  intros Hex. apply unbounded_highest. unfold highestSelected.
  induction Hex as [r' rs' Hopen|r' rs' _ IH]; simpl.
  - rewrite Hopen. apply highest_max_unbounded_r.
  - rewrite IH. apply highest_max_unbounded_l.
Qed.

Lemma tracker_step_0 : finish 0 tracker_new = (1, mkTracker 1 ∅).
Proof. vm_compute. reflexivity. Qed.

Lemma tracker_step_2 : finish 2 (mkTracker 1 ∅) = (1, mkTracker 1 {[2]}).
Proof. vm_compute. reflexivity. Qed.

Lemma tracker_step_1 : finish 1 (mkTracker 1 {[2]}) = (3, mkTracker 3 ∅).
Proof. vm_compute. reflexivity. Qed.

Section calls_only.

Variable CALL_FLAG_END_FRAME : N.
Variable o : trim_options (CallSet := SelectionSet).
Hypothesis all_threads : thread o = (-1)%Z.
Hypothesis no_frames : frames o = SelectNone.

(** With all threads and no frames set, only the calls set and the tracker
    decide. *)
Lemma loop_body_calls_only (c : Call) (st : LoopState) :
  loop_body CALL_FLAG_END_FRAME o c st =
  (mkLoop (if contains (calls o) (no c) (flags c) then writer st ++ [c] else writer st)
          (if ends_frame CALL_FLAG_END_FRAME c then uint_succ (frame st) else frame st)
          (snd (finish (no c) (callNumberTracker st))),
   empty (calls o) || (getLast (calls o) <? fst (finish (no c) (callNumberTracker st)))).
Proof.
  rewrite loop_body_eq. unfold call_selected, thread_selected, past_last.
  rewrite all_threads, no_frames. simpl. by rewrite orb_false_r, andb_true_r.
Qed.

End calls_only.

(** ** Claims on particular selections *)

(** C4, as the code has it.  For a stream whose events arrive with the
    sequence numbers 0, 2, 1, 3, with all threads, the calls selection [0-2]
    and no frames selection, the loop writes exactly the events numbered 0, 2
    and 1, in that order of arrival.  It does not stop after the event
    numbered 2, because the value [finish] returns at that point is 1 (the
    number 1 is still missing); after the event numbered 1 the value is 3 and
    the loop stops, leaving the event numbered 3 unread. *)
Theorem interleaved_calls_all_written (CALL_FLAG_END_FRAME : N)
    (o : trim_options) (c0 c1 c2 c3 : Call) :
  no c0 = 0 → no c1 = 1 → no c2 = 2 → no c3 = 3 →
  thread o = (-1)%Z → calls o = calls_0_to_2 → frames o = SelectNone →
  writer (snd (trim_loop CALL_FLAG_END_FRAME o
                 [Parsed c0; Parsed c2; Parsed c1; Parsed c3] loop_start))
    = [c0; c2; c1] ∧
  fst (trim_loop CALL_FLAG_END_FRAME o
         [Parsed c0; Parsed c2; Parsed c1; Parsed c3] loop_start)
    = [Parsed c3] ∧
  fst (finish (no c2)
         (callNumberTracker (fst (loop_body CALL_FLAG_END_FRAME o c0 loop_start)))) = 1 ∧
  snd (loop_body CALL_FLAG_END_FRAME o c2
         (fst (loop_body CALL_FLAG_END_FRAME o c0 loop_start))) = false ∧
  fst (finish (no c1)
         (callNumberTracker
            (fst (loop_body CALL_FLAG_END_FRAME o c2
                    (fst (loop_body CALL_FLAG_END_FRAME o c0 loop_start)))))) = 3 ∧
  snd (loop_body CALL_FLAG_END_FRAME o c1
         (fst (loop_body CALL_FLAG_END_FRAME o c2
                 (fst (loop_body CALL_FLAG_END_FRAME o c0 loop_start))))) = true.
Proof.
  intros H0 H1 H2 H3 Ht Hc Hf.
  assert (∃ f, loop_body CALL_FLAG_END_FRAME o c0 loop_start =
               (mkLoop [c0] f (mkTracker 1 ∅), false)) as [f0 B0].
  { rewrite loop_body_calls_only by done. rewrite H0, Hc. cbn.
    rewrite tracker_step_0. cbn. by eexists. }
  assert (∃ f, loop_body CALL_FLAG_END_FRAME o c2 (mkLoop [c0] f0 (mkTracker 1 ∅)) =
               (mkLoop [c0; c2] f (mkTracker 1 {[2]}), false)) as [f2 B2].
  { rewrite loop_body_calls_only by done. rewrite H2, Hc. cbn.
    rewrite tracker_step_2. cbn. by eexists. }
  assert (∃ f, loop_body CALL_FLAG_END_FRAME o c1 (mkLoop [c0; c2] f2 (mkTracker 1 {[2]})) =
               (mkLoop [c0; c2; c1] f (mkTracker 3 ∅), true)) as [f1 B1].
  { rewrite loop_body_calls_only by done. rewrite H1, Hc. cbn.
    rewrite tracker_step_1. cbn. by eexists. }
  rewrite !trim_loop_parsed, B0. cbn [fst snd]. rewrite B2. cbn [fst snd].
  rewrite B1. cbn [fst snd writer callNumberTracker].
  rewrite H1, H2, tracker_step_2, tracker_step_1. done.
Qed.

Lemma interleaved_calls_all_written_witness :
  no <$> writer (snd (trim_loop END_FRAME_BIT
                        (mkOptions calls_0_to_2 SelectNone "out.trace" (-1))
                        (Parsed <$> interleaved) loop_start))
  = [0; 2; 1].
Proof.
  destruct (interleaved_calls_all_written END_FRAME_BIT
              (mkOptions calls_0_to_2 SelectNone "out.trace" (-1))
              (mkCall 0 1 0 "glClear") (mkCall 1 1 0 "glDrawArrays")
              (mkCall 2 2 0 "glFlush") (mkCall 3 1 0 "glFinish")
              eq_refl eq_refl eq_refl eq_refl eq_refl eq_refl eq_refl)
    as [Hw _].
  exact (f_equal (fmap no) Hw).
Defined.

(** C4, as stated, fails: when the event numbered 2 has been processed the
    tracker's counter is 1, not 2. *)
Lemma interleaved_frontier_is_1 :
  nextExpectedNumber
    (callNumberTracker
       (snd (trim_loop END_FRAME_BIT
               (mkOptions calls_0_to_2 SelectNone "out.trace" (-1))
               (Parsed <$> take 2 interleaved) loop_start))) = 1 ∧
  nextExpectedNumber
    (callNumberTracker
       (snd (trim_loop END_FRAME_BIT
               (mkOptions calls_0_to_2 SelectNone "out.trace" (-1))
               (Parsed <$> take 2 interleaved) loop_start))) ≠ 2.
Proof.
  assert (nextExpectedNumber
    (callNumberTracker
       (snd (trim_loop END_FRAME_BIT
               (mkOptions calls_0_to_2 SelectNone "out.trace" (-1))
               (Parsed <$> take 2 interleaved) loop_start))) = 1) as ->
    by (vm_compute; reflexivity).
  split; [done|lia].
Qed.

Lemma read_options_neither (merge : SelectionSet → string → SelectionSet)
    (atoi : string → Z) (opts : list Opt) (o : trim_options) :
  Forall thread_or_output opts →
  ∃ o', read_options merge atoi opts o = inl o' ∧
        calls o' = calls o ∧ frames o' = frames o.
Proof.
  intros Hopts. revert o. induction Hopts as [|opt opts Hopt _ IH]; intros o.
  - by exists o.
  - destruct opt; try done; simpl.
    + destruct (IH (mkOptions (calls o) (frames o) (output o) (atoi optarg)))
        as (o' & Hr & Hc & Hf). by exists o'.
    + destruct (IH (mkOptions (calls o) (frames o) optarg (thread o)))
        as (o' & Hr & Hc & Hf). by exists o'.
Qed.

Lemma run_all_everything (CALL_FLAG_END_FRAME : N) (o : trim_options)
    (cs : list Call) (st : LoopState) :
  calls o = SelectAll →
  writer (run_all CALL_FLAG_END_FRAME o cs st) =
  writer st ++ List.filter (thread_selected o) cs.
Proof.
  intros Hall. revert st. induction cs as [|c cs IH]; intros st.
  - simpl. by rewrite app_nil_r.
  - change (run_all CALL_FLAG_END_FRAME o (c :: cs) st)
      with (run_all CALL_FLAG_END_FRAME o cs (fst (loop_body CALL_FLAG_END_FRAME o c st))).
    rewrite IH, loop_body_eq. cbn [fst writer List.filter].
    unfold call_selected. rewrite Hall. cbn [contains selection_ops selection_contains].
    rewrite orb_true_l, andb_true_r.
    destruct (thread_selected o c); [by rewrite <- app_assoc|done].
Qed.

(** C7.  When the options given to [command] set neither the calls nor the
    frames selection, [trim_trace] is run with the calls selection
    "everything": the loop reads the input until [parse_call] returns null
    and writes every event that passes the thread filter, whatever its
    number. *)
Theorem default_selects_everything (CALL_FLAG_END_FRAME : N)
    (trimExtension : string → string)
    (merge : SelectionSet → string → SelectionSet) (atoi : string → Z)
    (env : Env) (opts : list Opt) (filename : string) :
  Forall thread_or_output opts →
  ∃ o,
    read_options merge atoi opts (mkOptions SelectNone SelectNone EmptyString (-1)) = inl o ∧
    calls o = SelectNone ∧ frames o = SelectNone ∧
    command CALL_FLAG_END_FRAME trimExtension merge atoi env opts [filename] =
      trim_trace CALL_FLAG_END_FRAME trimExtension env filename
                 (mkOptions SelectAll SelectNone (output o) (thread o)) ∧
    ∀ file,
      open_input env filename = Some file →
      create_output env (output_file trimExtension filename o)
                    (version file) (properties file) = true →
      written_calls
        (command CALL_FLAG_END_FRAME trimExtension merge atoi env opts [filename]) =
        List.filter (thread_selected o) (parsed_calls (events file)) ∧
      fst <$> run
        (command CALL_FLAG_END_FRAME trimExtension merge atoi env opts [filename]) =
        Some (after_null (events file)).
Proof.
  intros Hopts.
  destruct (read_options_neither merge atoi opts
              (mkOptions SelectNone SelectNone EmptyString (-1)) Hopts)
    as (o & Hr & Hc & Hf).
  cbn [calls frames] in Hc, Hf. exists o. split; [done|]. split; [done|]. split; [done|].
  assert (command CALL_FLAG_END_FRAME trimExtension merge atoi env opts [filename] =
          trim_trace CALL_FLAG_END_FRAME trimExtension env filename
                     (mkOptions SelectAll SelectNone (output o) (thread o))) as Hcmd.
  { unfold command. cbn [callset_of selection_ops selection_of]. rewrite Hr.
    unfold default_calls. rewrite Hc, Hf. reflexivity. }
  split; [done|]. intros file Hopen Hcreate. rewrite Hcmd.
  unfold written_calls, trim_trace. rewrite Hopen.
  change (output_file trimExtension filename
            (mkOptions SelectAll SelectNone (output o) (thread o)))
    with (output_file trimExtension filename o).
  rewrite Hcreate. cbn [run].
  rewrite trim_loop_unbounded;
    [|left; apply unbounded_select_all|apply loop_start_in_range].
  split; [|done]. by rewrite run_all_everything.
Qed.

Lemma default_selects_everything_witness :
  no <$> written_calls
    (command END_FRAME_BIT (fun s => s) (fun s _ => s) (fun _ => 2%Z)
             (one_trace (Parsed <$> interleaved))
             [OptThread "2"; OptOutput "out.trace"] ["in.trace"])
  = [2].
Proof.
  destruct (default_selects_everything END_FRAME_BIT (fun s => s) (fun s _ => s)
              (fun _ => 2%Z) (one_trace (Parsed <$> interleaved))
              [OptThread "2"; OptOutput "out.trace"] "in.trace")
    as (o & Hr & _ & _ & _ & Hrun).
  - repeat constructor.
  - injection Hr as <-.
    destruct (Hrun (mkTraceFile 5 [] (Parsed <$> interleaved)) eq_refl eq_refl)
      as [Hw _].
    rewrite Hw. reflexivity.
Defined.

(** ** The claims on the example data *)

Lemma break_iff_past_last_witness :
  unbounded SelectAll ∧
  trim_loop END_FRAME_BIT (mkOptions SelectAll SelectNone "out.trace" (-1))
            (Parsed <$> interleaved) loop_start =
  ([], run_all END_FRAME_BIT (mkOptions SelectAll SelectNone "out.trace" (-1))
               interleaved loop_start).
Proof.
  assert (unbounded SelectAll) as Hunb.
  { split; [reflexivity|]. vm_compute. discriminate. }
  split; [exact Hunb|].
  destruct (break_iff_past_last END_FRAME_BIT
              (mkOptions SelectAll SelectNone "out.trace" (-1))
              (mkCall 0 1 0 "glClear") [] loop_start)
    as (_ & _ & _ & _ & Hrun).
  rewrite Hrun; [reflexivity|]. left. exact Hunb.
Defined.

Lemma written_iff_selected_witness :
  writer (fst (loop_body END_FRAME_BIT (mkOptions calls_0_to_2 SelectNone "out.trace" 1)
                         (mkCall 2 1 0 "glFlush") loop_start))
  = [mkCall 2 1 0 "glFlush"] ∧
  thread_id (mkCall 2 1 0 "glFlush") = uint_of_int 1.
Proof.
  destruct (written_iff_selected END_FRAME_BIT
              (mkOptions calls_0_to_2 SelectNone "out.trace" 1)
              (mkCall 2 1 0 "glFlush") loop_start) as ([_ Hw] & _ & Heq).
  assert (thread_id (mkCall 2 1 0 "glFlush") = uint_of_int 1) as Hid.
  { apply Heq; [simpl; lia|reflexivity]. }
  split; [|exact Hid].
  apply Hw. split; [right; exact Hid|left; reflexivity].
Defined.

(** C3, as stated, fails for a negative filter other than -1: with
    [--thread=-2] the filter is not "all threads" and does not equal the
    [thread_id] 4294967294, yet the comparison of line 180 converts -2 to
    that very [unsigned] and the call is written. *)
Lemma negative_thread_filter_matches :
  writer (fst (loop_body END_FRAME_BIT (mkOptions SelectAll SelectNone "out.trace" (-2))
                         (mkCall 0 4294967294 0 "glClear") loop_start))
  = [mkCall 0 4294967294 0 "glClear"] ∧
  (-2)%Z ≠ (-1)%Z ∧
  Z.of_N (thread_id (mkCall 0 4294967294 0 "glClear")) ≠ (-2)%Z.
Proof.
  split; [vm_compute; reflexivity|]. split; [discriminate|]. simpl. discriminate.
Qed.

Lemma frame_counted_after_selection_witness :
  frame (fst (loop_body END_FRAME_BIT
                (mkOptions SelectNone (SelectRanges (mkRange 0 (UpTo 0)) []) "out.trace" (-1))
                (mkCall 7 1 32 "glXSwapBuffers") loop_start)) = 1 ∧
  writer (fst (loop_body END_FRAME_BIT
                (mkOptions SelectNone (SelectRanges (mkRange 0 (UpTo 0)) []) "out.trace" (-1))
                (mkCall 7 1 32 "glXSwapBuffers") loop_start))
  = [mkCall 7 1 32 "glXSwapBuffers"].
Proof.
  assert (N.land (flags (mkCall 7 1 32 "glXSwapBuffers")) END_FRAME_BIT ≠ 0) as Hflag
    by (vm_compute; discriminate).
  destruct (frame_counted_after_selection END_FRAME_BIT
              (mkOptions SelectNone (SelectRanges (mkRange 0 (UpTo 0)) []) "out.trace" (-1))
              (mkCall 7 1 32 "glXSwapBuffers") loop_start Hflag) as (_ & Hplus & Hw).
  split.
  - apply Hplus. vm_compute. reflexivity.
  - apply Hw. split; [left; reflexivity|right; reflexivity].
Defined.

Lemma open_failure_aborts_witness :
  (exit_status (trim_trace END_FRAME_BIT (fun s => s) (one_trace (Parsed <$> interleaved))
                  "missing.trace" (mkOptions SelectAll SelectNone "out.trace" (-1))) = 1%Z ∧
   cerr (trim_trace END_FRAME_BIT (fun s => s) (one_trace (Parsed <$> interleaved))
           "missing.trace" (mkOptions SelectAll SelectNone "out.trace" (-1)))
     = ["error: failed to open missing.trace" +:+ nl]) ∧
  (exit_status (trim_trace END_FRAME_BIT (fun s => s) (one_trace (Parsed <$> interleaved))
                  "in.trace" (mkOptions SelectAll SelectNone "other.trace" (-1))) = 1%Z ∧
   cerr (trim_trace END_FRAME_BIT (fun s => s) (one_trace (Parsed <$> interleaved))
           "in.trace" (mkOptions SelectAll SelectNone "other.trace" (-1)))
     = ["error: failed to create other.trace" +:+ nl]).
Proof.
  destruct (open_failure_aborts END_FRAME_BIT (fun s => s)
              (one_trace (Parsed <$> interleaved)) "missing.trace"
              (mkOptions SelectAll SelectNone "out.trace" (-1))) as [Hopen _].
  destruct (open_failure_aborts END_FRAME_BIT (fun s => s)
              (one_trace (Parsed <$> interleaved)) "in.trace"
              (mkOptions SelectAll SelectNone "other.trace" (-1))) as [_ Hcreate].
  split.
  - destruct (Hopen eq_refl) as (Hs & He & _). by rewrite Hs, He.
  - destruct (Hcreate (mkTraceFile 5 [] (Parsed <$> interleaved)) eq_refl eq_refl)
      as (Hs & He & _). by rewrite Hs, He.
Defined.

Lemma read_failure_ends_quietly_witness :
  exit_status
    (trim_trace END_FRAME_BIT (fun s => s)
       (one_trace ((Parsed <$> take 2 interleaved) ++ ReadFailure :: (Parsed <$> drop 2 interleaved)))
       "in.trace" (mkOptions SelectAll SelectNone "out.trace" (-1))) = 0%Z ∧
  no <$> written_calls
    (trim_trace END_FRAME_BIT (fun s => s)
       (one_trace ((Parsed <$> take 2 interleaved) ++ ReadFailure :: (Parsed <$> drop 2 interleaved)))
       "in.trace" (mkOptions SelectAll SelectNone "out.trace" (-1))) = [0; 2].
Proof.
  destruct (read_failure_ends_quietly END_FRAME_BIT (fun s => s)
       (one_trace ((Parsed <$> take 2 interleaved) ++ ReadFailure :: (Parsed <$> drop 2 interleaved)))
       "in.trace" (mkOptions SelectAll SelectNone "out.trace" (-1))
       (mkTraceFile 5 []
          ((Parsed <$> take 2 interleaved) ++ ReadFailure :: (Parsed <$> drop 2 interleaved)))
       (take 2 interleaved) (Parsed <$> drop 2 interleaved))
    as (Hs & _ & _ & Hw); [reflexivity|reflexivity|reflexivity|].
  split; [exact Hs|]. rewrite Hw. vm_compute. reflexivity.
Defined.

(** C9, as stated, fails: on a trace whose third read fails, after two
    events have been processed and written, [trim_trace] returns 0 and the
    only line it sends to [std::cerr] announces the trimmed trace; the
    failure is not reported. *)
Lemma read_failure_not_reported :
  exit_status
    (trim_trace END_FRAME_BIT (fun s => s)
       (one_trace ((Parsed <$> take 2 interleaved) ++ ReadFailure :: (Parsed <$> drop 2 interleaved)))
       "in.trace" (mkOptions SelectAll SelectNone "out.trace" (-1))) = 0%Z ∧
  cerr
    (trim_trace END_FRAME_BIT (fun s => s)
       (one_trace ((Parsed <$> take 2 interleaved) ++ ReadFailure :: (Parsed <$> drop 2 interleaved)))
       "in.trace" (mkOptions SelectAll SelectNone "out.trace" (-1)))
    = ["Trimmed trace is available as out.trace" +:+ nl] ∧
  cerr
    (trim_trace END_FRAME_BIT (fun s => s)
       (one_trace ((Parsed <$> take 2 interleaved) ++ ReadFailure :: (Parsed <$> drop 2 interleaved)))
       "in.trace" (mkOptions SelectAll SelectNone "out.trace" (-1)))
    = cerr
    (trim_trace END_FRAME_BIT (fun s => s)
       (one_trace (Parsed <$> take 2 interleaved))
       "in.trace" (mkOptions SelectAll SelectNone "out.trace" (-1))).
Proof. split; [|split]; vm_compute; reflexivity. Qed.

(** * Further properties of the tracker *)

Lemma finish_queue_sound (D : gset N) (n : N) (t : ContiguousNumberTracker) :
  receivedOutOfOrder t ⊆ D →
  receivedOutOfOrder (snd (finish n t)) ⊆ {[n]} ∪ D.
Proof.
  intros Hs. destruct t as [next s]; simpl in *. unfold finish; simpl.
  destruct (N.eqb_spec n next) as [->|Hne]; simpl.
  - apply (catch_up_while (fun t => receivedOutOfOrder t ⊆ {[next]} ∪ D)); simpl.
    + intros nx sx Hsx _ x [Hx _]%elem_of_difference. by apply Hsx.
    + lia.
    + intros x Hx. apply elem_of_union_r. by apply Hs.
  - intros x [Hx|Hx]%elem_of_union; [by apply elem_of_union_l|].
    apply elem_of_union_r. by apply Hs.
Qed.

Lemma finish_all_queue_sound (l : list N) (x : N) :
  x ∈ receivedOutOfOrder (finish_all l tracker_new) → x ∈ l.
Proof.
  revert x. induction l as [|n l IH] using rev_ind; intros x Hx.
  - by apply not_elem_of_empty in Hx.
  - unfold finish_all in Hx. rewrite foldl_app in Hx. simpl in Hx.
    apply (finish_queue_sound (list_to_set l)) in Hx.
    + apply elem_of_app. apply elem_of_union in Hx as [Hx%elem_of_singleton|Hx].
      * right. by apply list_elem_of_singleton.
      * left. by apply elem_of_list_to_set in Hx.
    + intros y Hy. apply elem_of_list_to_set. by apply IH.
Qed.

(** X1.  After any sequence of [finish] calls on a fresh tracker, in any
    order and with repetitions, [nextExpectedNumber] is the least number that
    was never finished, provided that number is an [unsigned]; every finished
    number above it waits in [receivedOutOfOrder], and the set holds nothing
    that was not finished. *)
Theorem finish_all_least_unfinished (l : list N) (k : N) :
  k ≤ UINT_MAX → k ∉ l → (∀ j, j < k → j ∈ l) →
  nextExpectedNumber (finish_all l tracker_new) = k ∧
  (∀ x, k < x → x ∈ l → x ∈ receivedOutOfOrder (finish_all l tracker_new)) ∧
  (∀ x, x ∈ receivedOutOfOrder (finish_all l tracker_new) → x ∈ l).
Proof.
  intros Hk Hkl Hall.
  pose proof (finish_all_first_gap k l Hk Hkl Hall) as Hnext.
  split; [done|]. split; [|apply finish_all_queue_sound].
  destruct (frontier_finish_all 0 k l tracker_new ∅ Hk Hkl)
    as [[_ _ _ Hq _] _]; [apply not_elem_of_empty|apply frontier_new|].
  intros x Hx Hin. apply Hq; [lia|]. by apply elem_of_union_l, elem_of_list_to_set.
Qed.

Lemma finish_all_least_unfinished_witness :
  nextExpectedNumber (finish_all [4; 0; 1; 0; 4; 3] tracker_new) = 2 ∧
  3 ∈ receivedOutOfOrder (finish_all [4; 0; 1; 0; 4; 3] tracker_new).
Proof.
  assert (2 ∉ [4; 0; 1; 0; 4; 3]) as Hmiss.
  { intros Hin. repeat (apply elem_of_cons in Hin as [Hin|Hin]; [discriminate Hin|]).
    by apply elem_of_nil in Hin. }
  assert (∀ j, j < 2 → j ∈ [4; 0; 1; 0; 4; 3]) as Hlow.
  { intros j Hj. assert (j = 0 ∨ j = 1) as [-> | ->] by lia.
    - apply elem_of_cons. right. apply elem_of_cons. by left.
    - do 2 (apply elem_of_cons; right). apply elem_of_cons. by left. }
  destruct (finish_all_least_unfinished [4; 0; 1; 0; 4; 3] 2) as (Hn & Hq & _);
    [unfold UINT_MAX; lia|done|done|].
  split; [done|]. apply Hq; [lia|].
  do 5 (apply elem_of_cons; right). apply elem_of_cons. by left.
Defined.

(** X2.  For any sequence of [finish] calls whatsoever the set holds only
    numbers that were finished, [nextExpectedNumber] is never a member of
    it, and [nextExpectedNumber] stays an [unsigned]. *)
Theorem finish_all_always (l : list N) :
  (∀ x, x ∈ receivedOutOfOrder (finish_all l tracker_new) → x ∈ l) ∧
  (nextExpectedNumber (finish_all l tracker_new)
     ∉ receivedOutOfOrder (finish_all l tracker_new)) ∧
  nextExpectedNumber (finish_all l tracker_new) ≤ UINT_MAX.
Proof.
  split; [apply finish_all_queue_sound|]. split; [apply finish_all_exit|].
  apply finish_all_range.
Qed.

(** Under the discipline the state is determined by the set of finished
    numbers. *)
Lemma discipline_unique (D : gset N) (t t' : ContiguousNumberTracker) :
  nextExpectedNumber t ≤ UINT_MAX → nextExpectedNumber t' ≤ UINT_MAX →
  discipline D t → discipline D t' → t = t'.
Proof.
  intros Hr Hr' [Hlow Hfresh Hq|Hz He Hall] [Hlow' Hfresh' Hq'|Hz' He' Hall'];
    destruct t as [next s], t' as [next' s']; simpl in *.
  - assert (next = next') as ->.
    { destruct (N.lt_trichotomy next next') as [Hlt|[Heq|Hlt]]; [|done|].
      - by apply Hlow' in Hlt.
      - by apply Hlow in Hlt. }
    f_equal. apply set_eq. intros x. by rewrite Hq, Hq'.
  - exfalso. by apply Hfresh, Hall'.
  - exfalso. by apply Hfresh', Hall.
  - by subst.
Qed.

(** X3.  Under the call discipline (every number an [unsigned], none
    finished twice) the order of the [finish] calls does not matter: two
    sequences that finish the same numbers leave the tracker in the same
    state, counter and set. *)
Theorem finish_all_order_irrelevant (l l' : list N) :
  NoDup l → (∀ x, x ∈ l → x ≤ UINT_MAX) → l ≡ₚ l' →
  finish_all l tracker_new = finish_all l' tracker_new.
Proof.
  intros Hnd Hb Hperm.
  apply (discipline_unique (list_to_set l)); try apply finish_all_range.
  - by apply discipline_finish_all.
  - rewrite (list_to_set_perm_L l l' Hperm). apply discipline_finish_all.
    + by rewrite <- Hperm.
    + intros x Hx. apply Hb. by rewrite Hperm.
Qed.

Lemma finish_all_order_irrelevant_witness :
  finish_all [3; 0; 2; 5] tracker_new = finish_all [5; 2; 3; 0] tracker_new.
Proof.
  apply finish_all_order_irrelevant.
  - apply (bool_decide_unpack _). vm_compute. exact I.
  - intros x Hx. unfold UINT_MAX.
    repeat (apply elem_of_cons in Hx as [->|Hx]; [lia|]). by apply elem_of_nil in Hx.
  - apply (bool_decide_unpack _). vm_compute. exact I.
Defined.

(** Without the discipline the order does matter for the set. *)
Example finish_all_order_matters_with_repeats :
  finish_all [1; 0; 1] tracker_new ≠ finish_all [1; 1; 0] tracker_new.
Proof.
  assert (finish_all [1; 0; 1] tracker_new = mkTracker 2 {[1]}) as ->
    by (vm_compute; reflexivity).
  assert (finish_all [1; 1; 0] tracker_new = mkTracker 2 ∅) as ->
    by (vm_compute; reflexivity).
  intros Heq. apply (f_equal receivedOutOfOrder) in Heq. simpl in Heq.
  assert (1 ∈ (∅ : gset N)) as Hin by (rewrite <- Heq; by apply elem_of_singleton).
  by apply not_elem_of_empty in Hin.
Qed.

(** X4.  A call [finish(n)] with [n] equal to [nextExpectedNumber], in any
    state of the tracker in which some [unsigned] [k] above [n] is not in
    the set: the counter moves forward over exactly the run of consecutive
    numbers that were waiting in the set right after [n], stops at the first
    number that is not waiting, and those numbers, and no others, leave the
    set. *)
Theorem finish_expected_takes_run (t : ContiguousNumberTracker) (k : N) :
  nextExpectedNumber t < k → k ≤ UINT_MAX → k ∉ receivedOutOfOrder t →
  nextExpectedNumber t < fst (finish (nextExpectedNumber t) t) ∧
  fst (finish (nextExpectedNumber t) t) ≤ k ∧
  (∀ x, nextExpectedNumber t < x → x < fst (finish (nextExpectedNumber t) t) →
        x ∈ receivedOutOfOrder t) ∧
  (fst (finish (nextExpectedNumber t) t) ∉ receivedOutOfOrder t) ∧
  (∀ x, x ∈ receivedOutOfOrder (snd (finish (nextExpectedNumber t) t)) ↔
        x ∈ receivedOutOfOrder t ∧
        ¬ (nextExpectedNumber t < x ∧ x < fst (finish (nextExpectedNumber t) t))).
Proof.
  rewrite finish_fst. destruct t as [next s].
  cbn [nextExpectedNumber receivedOutOfOrder]. intros Hlt Hk Hks.
  unfold finish. cbn [nextExpectedNumber receivedOutOfOrder snd].
  rewrite N.eqb_refl.
  destruct (catch_up_while
    (fun t' => next < nextExpectedNumber t' ∧ nextExpectedNumber t' ≤ k ∧
               (∀ x, next < x → x < nextExpectedNumber t' → x ∈ s) ∧
               (∀ x, x ∈ receivedOutOfOrder t' ↔
                     x ∈ s ∧ ¬ (next < x ∧ x < nextExpectedNumber t'))))
    with (fuel := S (size s)) (t := mkTracker (uint_succ next) s)
    as [(H1 & H2 & H3 & H4) Hx]; simpl.
  - intros nx sx (H1 & H2 & H3 & H4) Hin. simpl in *.
    apply H4 in Hin as [Hin Hout].
    assert (nx ≠ k) as Hne by (by intros ->).
    rewrite uint_succ_small by lia. split; [lia|]. split; [lia|]. split.
    + intros x Hx1 Hx2. destruct (decide (x = nx)) as [->|]; [done|]. apply H3; lia.
    + intros x. rewrite elem_of_difference, H4, not_elem_of_singleton.
      split; [intros [[? ?] ?]; split; [done|lia]|].
      intros [? Hn]. split; [split; [done|lia]|]. intros ->. apply Hn. lia.
  - lia.
  - rewrite uint_succ_small by lia. split; [lia|]. split; [lia|]. split.
    + intros x Hx1 Hx2. lia.
    + intros x. split; [intros ?; split; [done|lia]|by intros [? _]].
  - split; [done|]. split; [done|]. split; [done|]. split; [|done].
    intros Hin. apply Hx, H4. split; [done|lia].
Qed.

Lemma finish_expected_takes_run_witness :
  fst (finish 2 (mkTracker 2 {[3; 4; 6]})) = 5 ∧
  (6 ∈ receivedOutOfOrder (snd (finish 2 (mkTracker 2 {[3; 4; 6]})))) ∧
  (4 ∉ receivedOutOfOrder (snd (finish 2 (mkTracker 2 {[3; 4; 6]})))).
Proof.
  assert (7 ∉ ({[3; 4; 6]} : gset N)) as Hout
    by (apply (bool_decide_unpack _); vm_compute; exact I).
  assert (fst (finish 2 (mkTracker 2 {[3; 4; 6]})) = 5) as Hv
    by (vm_compute; reflexivity).
  destruct (finish_expected_takes_run (mkTracker 2 {[3; 4; 6]}) 7)
    as (_ & _ & _ & _ & Hset); [simpl; lia|unfold UINT_MAX; lia|exact Hout|].
  cbn [nextExpectedNumber receivedOutOfOrder] in Hset. rewrite Hv in Hset.
  split; [exact Hv|]. split.
  - apply Hset. split; [|lia].
    apply (bool_decide_unpack _). vm_compute. exact I.
  - intros Hin. apply Hset in Hin as [_ Hn]. apply Hn. lia.
Defined.

(** X5.  A call [finish(n)] with [n] different from [nextExpectedNumber]
    returns the counter unchanged and adds [n] to the set; repeating the call
    changes nothing more, so a number reported twice while it waits is kept
    once. *)
Theorem finish_unexpected_repeats (t : ContiguousNumberTracker) (n : N) :
  n ≠ nextExpectedNumber t →
  fst (finish n t) = nextExpectedNumber t ∧
  (∀ x, x ∈ receivedOutOfOrder (snd (finish n t)) ↔ x = n ∨ x ∈ receivedOutOfOrder t) ∧
  finish n (snd (finish n t)) = finish n t.
Proof.
  intros Hne. unfold finish.
  destruct (N.eqb_spec n (nextExpectedNumber t)) as [|_]; [done|]. simpl.
  destruct (N.eqb_spec n (nextExpectedNumber t)) as [|_]; [done|]. simpl.
  split; [done|]. split.
  - intros x. by rewrite elem_of_union, elem_of_singleton.
  - by rewrite (assoc_L (∪)), (idemp_L (∪)).
Qed.

Lemma finish_unexpected_repeats_witness :
  finish 5 (snd (finish 5 (mkTracker 2 {[3]}))) = finish 5 (mkTracker 2 {[3]}).
Proof.
  apply finish_unexpected_repeats. simpl. lia.
Defined.

(** X6.  When the calls arrive in increasing order, [finish(0)],
    [finish(1)], ..., [finish(n-1)] with [n] an [unsigned], nothing is ever
    put in the out-of-order set: the tracker ends with the counter at [n] and
    an empty set. *)
Theorem finish_in_order_never_queues (n : N) :
  n ≤ UINT_MAX →
  finish_all (numbers_below n) tracker_new = mkTracker n ∅.
Proof.
  intros Hn.
  assert (nextExpectedNumber (finish_all (numbers_below n) tracker_new) = n) as Hnext.
  { apply finish_all_first_gap; [done| |].
    - rewrite elem_of_numbers_below. lia.
    - intros j Hj. by apply elem_of_numbers_below. }
  assert (discipline (list_to_set (numbers_below n))
            (finish_all (numbers_below n) tracker_new)) as Hd.
  { apply discipline_finish_all; [apply NoDup_numbers_below|].
    intros x Hx%elem_of_numbers_below. lia. }
  pose proof (discipline_queue_above _ _ Hd) as Habove.
  destruct (finish_all (numbers_below n) tracker_new) as [next s] eqn:Hrun.
  simpl in *. subst next. f_equal. apply set_eq. intros x.
  split; [|by intros ?%not_elem_of_empty]. intros Hx. exfalso.
  pose proof (Habove x Hx) as Hlt.
  assert (x ∈ receivedOutOfOrder (finish_all (numbers_below n) tracker_new)) as Hin
    by (by rewrite Hrun).
  apply finish_all_queue_sound, elem_of_numbers_below in Hin. lia.
Qed.

Lemma finish_in_order_never_queues_witness :
  finish_all (numbers_below 6) tracker_new = mkTracker 6 ∅.
Proof.
  apply finish_in_order_never_queues. unfold UINT_MAX. lia.
Defined.

(** * Further properties of the loop of trim_trace *)

Section trim_further.

Context {CallSet : Type} `{!CallSetOps CallSet}.
Variable CALL_FLAG_END_FRAME : N.
Variable trimExtension : string → string.

Local Abbreviation body := (loop_body CALL_FLAG_END_FRAME).
Local Abbreviation loop := (trim_loop CALL_FLAG_END_FRAME).
Local Abbreviation trim := (trim_trace CALL_FLAG_END_FRAME trimExtension).
Local Abbreviation all := (run_all CALL_FLAG_END_FRAME).
Local Abbreviation read := (calls_read CALL_FLAG_END_FRAME).

Lemma run_all_cons (o : trim_options) (c : Call) (cs : list Call) (st : LoopState) :
  all o (c :: cs) st = all o cs (fst (body o c st)).
Proof. reflexivity. Qed.

Lemma calls_read_parsed (o : trim_options) (c : Call) (rest : Parser) (st : LoopState) :
  read o (Parsed c :: rest) st =
  if snd (body o c st) then [c] else c :: read o rest (fst (body o c st)).
Proof. simpl. by destruct (body o c st) as [st' []]. Qed.

Lemma trim_loop_run_all (o : trim_options) (p : Parser) (st : LoopState) :
  snd (loop o p st) = all o (read o p st) st.
Proof.
  revert st. induction p as [|[c|] rest IH]; intros st; [done| |done].
  rewrite trim_loop_parsed, calls_read_parsed.
  destruct (snd (body o c st)); [done|]. rewrite run_all_cons. apply IH.
Qed.

Lemma calls_read_input (o : trim_options) (p : Parser) (st : LoopState) :
  p = (Parsed <$> read o p st) ++ fst (loop o p st) ∨
  p = (Parsed <$> read o p st) ++ ReadFailure :: fst (loop o p st).
Proof.
  revert st. induction p as [|[c|] rest IH]; intros st; [by left| |by right].
  rewrite trim_loop_parsed, calls_read_parsed.
  destruct (snd (body o c st)); [by left|].
  rewrite fmap_cons. simpl app.
  destruct (IH (fst (body o c st))) as [Heq|Heq]; [left|right]; f_equal; exact Heq.
Qed.

Lemma calls_read_prefix (o : trim_options) (p : Parser) (st : LoopState) :
  read o p st `prefix_of` parsed_calls p.
Proof.
  revert st. induction p as [|[c|] rest IH]; intros st; [done| |done].
  rewrite calls_read_parsed. simpl parsed_calls.
  destruct (snd (body o c st)); apply prefix_cons; [apply prefix_nil|apply IH].
Qed.

Lemma run_all_tracker (o : trim_options) (cs : list Call) (st : LoopState) :
  callNumberTracker (all o cs st) = finish_all (no <$> cs) (callNumberTracker st).
Proof.
  revert st. induction cs as [|c cs IH]; intros st; [done|].
  rewrite run_all_cons, IH, loop_body_eq. reflexivity.
Qed.

Lemma loop_body_in_range_frame (o : trim_options) (c : Call) (st : LoopState) :
  frame st ≤ UINT_MAX → frame (fst (body o c st)) ≤ UINT_MAX.
Proof.
  intros Hst. rewrite loop_body_eq. cbn [fst frame].
  destruct (ends_frame _ c); [apply uint_succ_range|done].
Qed.

Lemma run_all_frame (o : trim_options) (cs : list Call) (st : LoopState) :
  frame st ≤ UINT_MAX →
  frame (all o cs st) =
  (frame st + N.of_nat (length (List.filter (ends_frame CALL_FLAG_END_FRAME) cs)))
    mod 2 ^ 32.
Proof.
  revert st. induction cs as [|c cs IH]; intros st Hst.
  - simpl. rewrite N.add_0_r. symmetry. apply N.mod_small. unfold UINT_MAX in Hst. lia.
  - rewrite run_all_cons, IH by (by apply loop_body_in_range_frame).
    rewrite loop_body_eq. cbn [fst frame List.filter].
    destruct (ends_frame CALL_FLAG_END_FRAME c); [|done].
    unfold uint_succ. cbn [length]. rewrite N.Div0.add_mod_idemp_l. f_equal. lia.
Qed.

Lemma run_all_written (o : trim_options) (cs : list Call) (st : LoopState) :
  ∃ w, writer (all o cs st) = writer st ++ w ∧
       w `sublist_of` cs ∧
       ∀ c, c ∈ w →
         (thread o = (-1)%Z ∨ thread_id c = uint_of_int (thread o)) ∧
         (contains (calls o) (no c) (flags c) = true ∨
          ∃ f, contains (frames o) f (flags c) = true).
Proof.
  revert st. induction cs as [|c cs IH]; intros st.
  - exists []. split; [by rewrite app_nil_r|]. split; [done|].
    intros c Hc. by apply elem_of_nil in Hc.
  - rewrite run_all_cons. destruct (IH (fst (body o c st))) as (w & Hw & Hsub & Hsel).
    rewrite Hw, loop_body_eq. cbn [fst writer].
    destruct (call_selected o (frame st) c) eqn:Hc.
    + exists (c :: w). split; [by rewrite <- app_assoc|]. split; [by apply sublist_skip|].
      intros c' [->|Hin]%elem_of_cons; [|by apply Hsel].
      apply call_selected_true in Hc as [Ht [Hcs|Hfs]]; eauto.
    + exists w. split; [done|]. split; [by apply sublist_cons|done].
Qed.

(** X7.  The loop only appends to the output, and what it appends is a
    subsequence of the calls of the input, in their order of arrival: no call
    is written that was not read, none is written more often than it was
    read, none is moved.  Every call written passes the thread filter (the
    filter is -1, or the [thread_id] equals the filter converted to
    [unsigned]) and is contained in the calls set, or in the frames set for
    some frame. *)
Theorem written_is_selected_subsequence (o : trim_options) (p : Parser) (st : LoopState) :
  ∃ w, writer (snd (loop o p st)) = writer st ++ w ∧
       w `sublist_of` parsed_calls p ∧
       ∀ c, c ∈ w →
         (thread o = (-1)%Z ∨ thread_id c = uint_of_int (thread o)) ∧
         (contains (calls o) (no c) (flags c) = true ∨
          ∃ f, contains (frames o) f (flags c) = true).
Proof.
  rewrite trim_loop_run_all.
  destruct (run_all_written o (read o p st) st) as (w & Hw & Hsub & Hsel).
  exists w. split; [done|]. split; [|done].
  trans (read o p st); [done|].
  destruct (calls_read_prefix o p st) as [k ->]. by apply sublist_inserts_r.
Qed.

(** X8.  When the loop is left, what it has read and what is left in the
    parser make up the input, with at most the one null result between them;
    the loop state is that of the loop body run over every call read; every
    call read has been reported to the tracker, written or not, in the order
    of arrival. *)
Theorem read_calls_all_tracked (o : trim_options) (p : Parser) (st : LoopState) :
  (p = (Parsed <$> read o p st) ++ fst (loop o p st) ∨
   p = (Parsed <$> read o p st) ++ ReadFailure :: fst (loop o p st)) ∧
  snd (loop o p st) = all o (read o p st) st ∧
  callNumberTracker (snd (loop o p st)) =
    finish_all (no <$> read o p st) (callNumberTracker st).
Proof.
  split; [apply calls_read_input|]. split; [apply trim_loop_run_all|].
  rewrite trim_loop_run_all. apply run_all_tracker.
Qed.

(** X9.  When the loop is left, [frame] is the number of calls read whose
    flags have the end-of-frame bit, as an [unsigned] (modulo 2^32). *)
Theorem frame_counts_end_of_frame_calls (o : trim_options) (p : Parser) :
  frame (snd (loop o p loop_start)) =
  N.of_nat (length (List.filter (ends_frame CALL_FLAG_END_FRAME) (read o p loop_start)))
    mod 2 ^ 32.
Proof.
  rewrite trim_loop_run_all, run_all_frame; [done|]. simpl. unfold UINT_MAX. lia.
Qed.

Lemma run_all_writes_nothing (o : trim_options) (cs : list Call) (st : LoopState) :
  (∀ c, c ∈ cs → contains (calls o) (no c) (flags c) = false) →
  (∀ c f, c ∈ cs → frame st ≤ f → f ≤ UINT_MAX →
          contains (frames o) f (flags c) = false) →
  frame st + N.of_nat (length cs) ≤ UINT_MAX →
  writer (all o cs st) = writer st.
Proof.
  revert st. induction cs as [|c cs IH]; intros st Hc Hf Hlen; [done|].
  cbn [length] in Hlen.
  assert (frame st ≤ frame (fst (body o c st)) ∧
          frame (fst (body o c st)) ≤ frame st + 1) as [Hlo Hhi].
  { rewrite loop_body_eq. cbn [fst frame].
    destruct (ends_frame _ c); [rewrite uint_succ_small|]; lia. }
  rewrite run_all_cons, IH.
  - rewrite loop_body_eq. cbn [fst writer]. unfold call_selected.
    rewrite (Hc c), (Hf c (frame st)); [|by left|lia|lia|by left].
    by rewrite andb_false_r.
  - intros c' Hc'. apply Hc. by right.
  - intros c' f Hc' Hf1 Hf2. apply Hf; [by right|lia|done].
  - lia.
Qed.

Lemma trim_loop_early_stop (o : trim_options) (p : Parser) (st : LoopState)
    (finished : list N) :
  last_bounds (calls o) → last_bounds (frames o) →
  NoDup (finished ++ (no <$> parsed_calls p)) →
  (∀ x, x ∈ finished ++ (no <$> parsed_calls p) → x ≤ UINT_MAX) →
  discipline (list_to_set finished) (callNumberTracker st) →
  frame st + N.of_nat (length (parsed_calls p)) ≤ UINT_MAX →
  writer (snd (loop o p st)) = writer (all o (parsed_calls p) st).
Proof.
  intros Hlc Hlf. revert st finished.
  induction p as [|[c|] rest IH]; intros st finished Hnd Hb Hd Hlen; [done| |done].
  cbn [parsed_calls fmap list_fmap length] in *.
  rewrite trim_loop_parsed, run_all_cons.
  assert (no c ≤ UINT_MAX) as Hno.
  { apply Hb, elem_of_app. right. by left. }
  assert (no c ∉ (list_to_set finished : gset N)) as Hfresh.
  { intros Hin%elem_of_list_to_set. apply NoDup_app in Hnd as (_ & Hdisj & _).
    apply (Hdisj _ Hin). by left. }
  assert (discipline (list_to_set (finished ++ [no c]))
            (callNumberTracker (fst (body o c st)))) as Hd'.
  { rewrite loop_body_eq. cbn [fst callNumberTracker].
    replace (list_to_set (finished ++ [no c]) : gset N)
      with ({[no c]} ∪ list_to_set finished : gset N).
    2: { rewrite list_to_set_app_L. simpl. by rewrite (right_id_L ∅ (∪)), (comm_L (∪)). }
    apply discipline_finish; [|done|done|done].
    intros x Hx%elem_of_list_to_set. apply Hb, elem_of_app. by left. }
  assert (frame (fst (body o c st)) ≤ frame st + 1) as Hfr.
  { rewrite loop_body_eq. cbn [fst frame].
    destruct (ends_frame _ c); [rewrite uint_succ_small|]; lia. }
  assert (NoDup ((finished ++ [no c]) ++ (no <$> parsed_calls rest))) as Hnd'
    by (by rewrite <- app_assoc).
  destruct (snd (body o c st)) eqn:Hstop.
  - cbn [snd]. symmetry. apply run_all_writes_nothing; [| |lia].
    + intros c' Hc'. apply not_true_is_false. intros Hcont.
      assert (no c' ≤ UINT_MAX) as Hno'.
      { apply Hb, elem_of_app. right. right. by apply list_elem_of_fmap_2. }
      destruct (Hlc _ _ Hno' Hcont) as [Hne Hle].
      rewrite loop_body_eq in Hstop. cbn [snd] in Hstop.
      apply past_last_true in Hstop as [[Hemp|Hlast] _]; [congruence|].
      rewrite finish_fst in Hlast.
      apply (discipline_fresh_not_below _ _ (no c') Hd').
      * intros Hin%elem_of_list_to_set. apply NoDup_app in Hnd' as (_ & Hdisj & _).
        apply (Hdisj _ Hin). by apply list_elem_of_fmap_2.
      * rewrite loop_body_eq. cbn [fst callNumberTracker]. lia.
    + intros c' f Hc' Hf1 Hf2. apply not_true_is_false. intros Hcont.
      destruct (Hlf _ _ Hf2 Hcont) as [Hne Hle].
      rewrite loop_body_eq in Hstop. cbn [snd] in Hstop.
      apply past_last_true in Hstop as [_ [Hemp|Hlast]]; [congruence|].
      rewrite loop_body_eq in Hf1. cbn [fst frame] in Hf1. lia.
  - apply (IH _ (finished ++ [no c])); [done| |done|lia].
    intros x Hx. apply Hb. by rewrite <- app_assoc in Hx.
Qed.

(** X10.  Stopping early loses nothing.  Let the calls of the input carry
    distinct [unsigned] numbers, let there be at most [UINT_MAX] of them, and
    let [getLast()] of either set bound the indices the set contains.  Then
    the loop, which may leave through [break] before the end of the input,
    writes exactly the calls that the loop body writes when it is run over
    the whole input: no call after the [break] would have been selected. *)
Theorem early_stop_loses_nothing (o : trim_options) (p : Parser) :
  last_bounds (calls o) → last_bounds (frames o) →
  NoDup (no <$> parsed_calls p) →
  (∀ c, c ∈ parsed_calls p → no c ≤ UINT_MAX) →
  N.of_nat (length (parsed_calls p)) ≤ UINT_MAX →
  writer (snd (loop o p loop_start)) = writer (all o (parsed_calls p) loop_start).
Proof.
  intros Hlc Hlf Hnd Hb Hlen. apply (trim_loop_early_stop o p loop_start []); try done.
  - intros x (c & -> & Hc)%list_elem_of_fmap. by apply Hb.
  - apply (discipline_finish_all []); [apply NoDup_nil_2|].
    intros x Hx. by apply elem_of_nil in Hx.
Qed.

End trim_further.

Lemma highest_covers (rs : list CallRange) (n : N) :
  existsb (in_range n) rs = true →
  match foldr (fun r h =>
                 highest_max h match range_last r with
                               | UpTo last => Index last
                               | OpenEnded => Unbounded
                               end)
              NoIndex rs with
  | NoIndex => False
  | Index m => n ≤ m
  | Unbounded => True
  end.
Proof.
  induction rs as [|r rs IH]; [done|]. simpl.
  intros [Hin|Hex]%orb_true_iff.
  - unfold in_range in Hin. apply andb_true_iff in Hin as [_ Hlast].
    destruct (range_last r) as [last|]; [|by destruct (foldr _ _ rs)].
    apply N.leb_le in Hlast. destruct (foldr _ _ rs); simpl; lia.
  - specialize (IH Hex). destruct (foldr _ _ rs) as [|m|]; [done| |done].
    destruct (range_last r) as [last|]; simpl; lia.
Qed.

(** The selection set of the specification satisfies [last_bounds]. *)
Lemma selection_last_bounds (s : SelectionSet) : last_bounds s.
Proof.
  intros n call_flags Hn Hc. destruct s as [| |r rs]; [done| |].
  - split; [done|]. simpl. unfold selection_getLast. simpl. done.
  - split; [done|]. simpl in *. unfold selection_getLast, highestSelected.
    pose proof (highest_covers (r :: rs) n Hc) as Hcov.
    by destruct (foldr _ _ (r :: rs)).
Qed.

Lemma early_stop_loses_nothing_witness :
  writer (snd (trim_loop END_FRAME_BIT (mkOptions calls_0_to_2 SelectNone "out.trace" (-1))
                         (Parsed <$> interleaved) loop_start)) =
  writer (run_all END_FRAME_BIT (mkOptions calls_0_to_2 SelectNone "out.trace" (-1))
                  interleaved loop_start).
Proof.
  assert (NoDup (no <$> parsed_calls (Parsed <$> interleaved))) as Hnd.
  { apply (bool_decide_unpack _). vm_compute. exact I. }
  assert (∀ c, c ∈ parsed_calls (Parsed <$> interleaved) → no c ≤ UINT_MAX) as Hb.
  { intros c Hc. unfold UINT_MAX. simpl in Hc.
    repeat (apply elem_of_cons in Hc as [->|Hc]; [simpl; lia|]). by apply elem_of_nil in Hc. }
  assert (N.of_nat (length (parsed_calls (Parsed <$> interleaved))) ≤ UINT_MAX) as Hlen.
  { vm_compute. discriminate. }
  exact (early_stop_loses_nothing END_FRAME_BIT
           (mkOptions calls_0_to_2 SelectNone "out.trace" (-1)) (Parsed <$> interleaved)
           (selection_last_bounds calls_0_to_2) (selection_last_bounds SelectNone)
           Hnd Hb Hlen).
Defined.

(** * Further properties of trim_trace and command *)

Section command_further.

Context {CallSet : Type} `{!CallSetOps CallSet}.
Variable CALL_FLAG_END_FRAME : N.
Variable trimExtension : string → string.
Variable merge : CallSet → string → CallSet.
Variable atoi : string → Z.

Local Abbreviation trim := (trim_trace CALL_FLAG_END_FRAME trimExtension).
Local Abbreviation options := (read_options merge atoi).
Local Abbreviation cmd := (command CALL_FLAG_END_FRAME trimExtension merge atoi).

(** X11.  [trim_trace] returns 0 or 1 and sends exactly one line to
    [std::cerr] and nothing to [std::cout].  It returns 0 exactly when the
    input can be opened and the output created, and that is exactly when the
    loop is run. *)
Theorem trim_trace_status (env : Env) (filename : string) (o : trim_options) :
  (exit_status (trim env filename o) = 0%Z ∨ exit_status (trim env filename o) = 1%Z) ∧
  length (cerr (trim env filename o)) = 1%nat ∧
  cout (trim env filename o) = [] ∧
  (exit_status (trim env filename o) = 0%Z ↔
     ∃ file, open_input env filename = Some file ∧
             create_output env (output_file trimExtension filename o)
                           (version file) (properties file) = true) ∧
  (exit_status (trim env filename o) = 0%Z ↔ run (trim env filename o) ≠ None).
Proof.
  unfold trim_trace. destruct (open_input env filename) as [file|] eqn:Hopen.
  - destruct (create_output env _ (version file) (properties file)) eqn:Hcreate;
      cbn [exit_status cerr cout run].
    + split; [by left|]. split; [done|]. split; [done|]. split; [|done].
      split; [|done]. intros _. by exists file.
    + split; [by right|]. split; [done|]. split; [done|]. split; [|done].
      split; [done|]. intros (file' & [= <-] & Hc). congruence.
  - cbn [exit_status cerr cout run].
    split; [by right|]. split; [done|]. split; [done|]. split; [|done].
    split; [done|]. by intros (file' & [=] & _).
Qed.





End command_further.

(** * stringCompare *)

Lemma strcmp_flip (a b : string) : strcmp b a = (- strcmp a b)%Z.
Proof.
  revert b. induction a as [|c a IH]; intros [|d b]; cbn [strcmp c_bytes]; try lia.
  rewrite (N.eqb_sym (N_of_ascii d)).
  destruct (N.eqb_spec (N_of_ascii c) (N_of_ascii d)) as [Heq|Hne]; [|lia].
  rewrite Heq. destruct (N.eqb_spec (N_of_ascii d) 0); [done|apply IH].
Qed.

Lemma strcmp_zero (a b : string) : strcmp a b = 0%Z ↔ c_bytes a = c_bytes b.
Proof.
  revert b. induction a as [|c a IH]; intros [|d b]; cbn [strcmp c_bytes].
  - done.
  - destruct (N.eqb_spec (N_of_ascii d) 0); split; try done; lia.
  - destruct (N.eqb_spec (N_of_ascii c) 0); split; try done; lia.
  - destruct (N.eqb_spec (N_of_ascii c) (N_of_ascii d)) as [Heq|Hne].
    + rewrite <- Heq. destruct (N.eqb_spec (N_of_ascii c) 0); [done|].
      rewrite IH. split; [by intros ->|by intros [= ->]].
    + destruct (N.eqb_spec (N_of_ascii c) 0) as [Hc|Hc],
               (N.eqb_spec (N_of_ascii d) 0) as [Hd|Hd];
        split; try done; try lia; try congruence.
Qed.

Lemma strcmp_lt_trans (a b c : string) :
  (strcmp a b < 0)%Z → (strcmp b c < 0)%Z → (strcmp a c < 0)%Z.
Proof.
  revert b c. induction a as [|x a IH]; intros [|y b] [|z c]; cbn [strcmp]; try lia.
  all: repeat match goal with
              | |- context [(?u =? ?v)%N] => destruct (N.eqb_spec u v)
              end;
       try lia; try congruence.
  apply IH.
Qed.

(** X15.  [stringCompare] is a strict weak ordering of C strings, as an
    ordered container needs of its comparison: no string is before itself;
    of two strings at most one is before the other; the relation is
    transitive; and two strings are unordered exactly when they are the same
    sequence of bytes up to the terminating NUL. *)
Theorem stringCompare_strict_weak_order (a b c : string) :
  stringCompare a a = false ∧
  (stringCompare a b = true → stringCompare b a = false) ∧
  (stringCompare a b = true → stringCompare b c = true → stringCompare a c = true) ∧
  (stringCompare a b = false ∧ stringCompare b a = false ↔ c_bytes a = c_bytes b).
Proof.
  unfold stringCompare. split; [|split; [|split]].
  - assert (strcmp a a = 0%Z) as -> by (by apply strcmp_zero). done.
  - rewrite Z.ltb_lt, Z.ltb_ge, (strcmp_flip a b). lia.
  - rewrite !Z.ltb_lt. apply strcmp_lt_trans.
  - rewrite !Z.ltb_ge, (strcmp_flip a b), <- strcmp_zero. lia.
Qed.

Lemma stringCompare_strict_weak_order_witness :
  stringCompare "calls" "frames" = true ∧ stringCompare "frames" "calls" = false ∧
  stringCompare "calls" "thread" = true.
Proof.
  destruct (stringCompare_strict_weak_order "calls" "frames" "thread")
    as (_ & Hasym & Htrans & _).
  assert (stringCompare "calls" "frames" = true) as H1 by reflexivity.
  split; [exact H1|]. split; [by apply Hasym|]. apply Htrans; [exact H1|reflexivity].
Defined.


(** * When the loop of trim_trace stops *)

Section trim_stops.

Context {CallSet : Type} `{!CallSetOps CallSet}.
Variable CALL_FLAG_END_FRAME : N.

Local Abbreviation body := (loop_body CALL_FLAG_END_FRAME).
Local Abbreviation loop := (trim_loop CALL_FLAG_END_FRAME).
Local Abbreviation all := (run_all CALL_FLAG_END_FRAME).
Local Abbreviation read := (calls_read CALL_FLAG_END_FRAME).

Lemma frames_only_loop (o : trim_options) (p : Parser) (st : LoopState) :
  empty (calls o) = true → empty (frames o) = false →
  getLast (frames o) < UINT_MAX → frame st ≤ getLast (frames o) →
  frame (snd (loop o p st)) ≤ getLast (frames o) + 1 ∧
  (frame (snd (loop o p st)) ≤ getLast (frames o) →
     read o p st = parsed_calls p ∧ fst (loop o p st) = after_null p) ∧
  (frame (snd (loop o p st)) = getLast (frames o) + 1 →
     ∃ cs c, read o p st = cs ++ [c] ∧
             ends_frame CALL_FLAG_END_FRAME c = true ∧
             frame (all o cs st) = getLast (frames o)).
Proof.
  intros Hc Hf Hmax. revert st.
  induction p as [|[c|] rest IH]; intros st Hst.
  - simpl. split; [lia|]. split; [done|lia].
  - rewrite trim_loop_parsed, calls_read_parsed.
    assert (snd (body o c st) = (getLast (frames o) <? frame (fst (body o c st)))) as Hstop.
    { rewrite loop_body_eq. cbn [fst snd frame]. unfold past_last. by rewrite Hc, Hf. }
    assert (frame (fst (body o c st)) =
            if ends_frame CALL_FLAG_END_FRAME c then frame st + 1 else frame st) as Hfr.
    { rewrite loop_body_eq. cbn [fst frame].
      destruct (ends_frame _ c); [apply uint_succ_small; lia|done]. }
    rewrite Hstop. destruct (N.ltb_spec (getLast (frames o)) (frame (fst (body o c st))))
      as [Hlt|Hle].
    + cbn [fst snd]. destruct (ends_frame CALL_FLAG_END_FRAME c) eqn:Hend; [|lia].
      split; [lia|]. split; [lia|]. intros _. exists [], c. split; [done|].
      split; [done|]. simpl. lia.
    + destruct (IH _ Hle) as (H1 & H2 & H3). split; [done|]. split.
      * intros Hsmall. destruct (H2 Hsmall) as [-> ->]. done.
      * intros Hfull. destruct (H3 Hfull) as (cs & c' & -> & Hend & Hcnt).
        by exists (c :: cs), c'.
  - simpl. split; [lia|]. split; [done|lia].
Qed.

(** X16.  With no calls selection (an empty calls set) and a frames set
    whose [getLast()] is below [UINT_MAX], the loop stops exactly at the call
    that ends frame number [getLast()]: [frame] never goes beyond
    [getLast() + 1]; if it ends at [getLast() + 1], the last call read is an
    end-of-frame call and [frame] was [getLast()] before it; if it ends lower,
    the whole input up to the first null result has been read. *)
Theorem frames_only_stops_after_last_frame (o : trim_options) (p : Parser) :
  empty (calls o) = true → empty (frames o) = false →
  getLast (frames o) < UINT_MAX →
  frame (snd (loop o p loop_start)) ≤ getLast (frames o) + 1 ∧
  (frame (snd (loop o p loop_start)) ≤ getLast (frames o) →
     read o p loop_start = parsed_calls p ∧
     fst (loop o p loop_start) = after_null p) ∧
  (frame (snd (loop o p loop_start)) = getLast (frames o) + 1 →
     ∃ cs c, read o p loop_start = cs ++ [c] ∧
             ends_frame CALL_FLAG_END_FRAME c = true ∧
             frame (all o cs loop_start) = getLast (frames o)).
Proof.
  intros Hc Hf Hmax. apply frames_only_loop; try done. simpl. lia.
Qed.

Lemma calls_only_stop (o : trim_options) (c : Call) (st : LoopState) (finished : list N) :
  empty (frames o) = true → empty (calls o) = false →
  NoDup (finished ++ [no c]) →
  (∀ x, x ∈ finished ++ [no c] → x ≤ UINT_MAX) →
  N.of_nat (length (finished ++ [no c])) ≤ UINT_MAX →
  discipline (list_to_set finished) (callNumberTracker st) →
  discipline (list_to_set (finished ++ [no c])) (callNumberTracker (fst (body o c st))) ∧
  (snd (body o c st) = true ↔ numbers_complete (getLast (calls o)) (finished ++ [no c])).
Proof.
  intros Hf Hc Hnd Hb Hlen Hd.
  assert (discipline (list_to_set (finished ++ [no c]))
            (callNumberTracker (fst (body o c st)))) as Hd'.
  { rewrite loop_body_eq. cbn [fst callNumberTracker].
    replace (list_to_set (finished ++ [no c]) : gset N)
      with ({[no c]} ∪ list_to_set finished : gset N).
    2: { rewrite list_to_set_app_L. simpl. by rewrite (right_id_L ∅ (∪)), (comm_L (∪)). }
    apply NoDup_app in Hnd as (_ & Hdisj & _).
    apply discipline_finish; [| | |done].
    - intros x Hx%elem_of_list_to_set. apply Hb, elem_of_app. by left.
    - apply Hb, elem_of_app. right. by left.
    - intros Hin%elem_of_list_to_set. apply (Hdisj _ Hin). by left. }
  split; [done|].
  rewrite loop_body_eq. cbn [snd]. rewrite finish_fst. unfold past_last.
  rewrite Hf, Hc. cbn [orb]. rewrite andb_true_r, N.ltb_lt.
  rewrite loop_body_eq in Hd'. cbn [fst callNumberTracker] in Hd'.
  destruct Hd' as [Hlow Hfresh Hq|Hz He Hall].
  - split.
    + intros Hlt j Hj. apply (elem_of_list_to_set (C := gset N)), Hlow. lia.
    + intros Hcomp.
      destruct (N.lt_ge_cases (getLast (calls o))
                  (nextExpectedNumber (snd (finish (no c) (callNumberTracker st)))))
        as [|Hge]; [done|].
      exfalso. by apply Hfresh, elem_of_list_to_set, Hcomp.
  - exfalso. apply (not_all_listed (finished ++ [no c]) Hnd Hlen).
    intros k Hk. by apply (elem_of_list_to_set (C := gset N)), Hall.
Qed.

Lemma calls_only_loop (o : trim_options) (p : Parser) (st : LoopState)
    (finished : list N) :
  empty (frames o) = true → empty (calls o) = false →
  NoDup (finished ++ (no <$> parsed_calls p)) →
  (∀ x, x ∈ finished ++ (no <$> parsed_calls p) → x ≤ UINT_MAX) →
  N.of_nat (length (finished ++ (no <$> parsed_calls p))) ≤ UINT_MAX →
  discipline (list_to_set finished) (callNumberTracker st) →
  ¬ numbers_complete (getLast (calls o)) finished →
  (numbers_complete (getLast (calls o)) (finished ++ (no <$> read o p st)) →
     ∃ cs c, read o p st = cs ++ [c] ∧
             ¬ numbers_complete (getLast (calls o)) (finished ++ (no <$> cs))) ∧
  (¬ numbers_complete (getLast (calls o)) (finished ++ (no <$> read o p st)) →
     read o p st = parsed_calls p ∧ fst (loop o p st) = after_null p).
Proof.
  intros Hf Hc. revert st finished.
  induction p as [|[c|] rest IH]; intros st finished Hnd Hb Hlen Hd Hinc.
  - simpl. rewrite app_nil_r. split; [done|]. by split.
  - cbn [parsed_calls fmap list_fmap] in *.
    rewrite (cons_middle (no c)), app_assoc in Hnd, Hb, Hlen.
    destruct (calls_only_stop o c st finished Hf Hc) as [Hd' Hstop]; [| | |done|].
    { by apply NoDup_app in Hnd as (? & _). }
    { intros x Hx. apply Hb, elem_of_app. by left. }
    { rewrite length_app in Hlen. lia. }
    rewrite trim_loop_parsed, calls_read_parsed.
    destruct (snd (body o c st)) eqn:Hbrk.
    + split.
      * intros _. exists [], c. split; [done|]. simpl. by rewrite app_nil_r.
      * intros Hn. exfalso. apply Hn. simpl. by apply Hstop.
    + assert (¬ numbers_complete (getLast (calls o)) (finished ++ [no c])) as Hinc'.
      { intros Hcomp. apply Hstop in Hcomp. congruence. }
      destruct (IH (fst (body o c st)) (finished ++ [no c]) Hnd Hb Hlen Hd' Hinc')
        as [Hfull Hpart].
      rewrite fmap_cons, (cons_middle (no c)), app_assoc. split.
      * intros Hcomp. destruct (Hfull Hcomp) as (cs & c' & -> & Hn).
        exists (c :: cs), c'. split; [done|].
        by rewrite fmap_cons, (cons_middle (no c)), app_assoc.
      * intros Hn. destruct (Hpart Hn) as [-> ->]. done.
  - simpl. rewrite app_nil_r. split; [done|]. by split.
Qed.

(** X17.  With no frames selection (an empty frames set) and a non-empty
    calls set, on an input whose calls carry distinct [unsigned] numbers, at
    most [UINT_MAX] of them, the loop stops exactly at the call that
    completes the numbers 0, ..., [getLast()]: if the calls read include all
    these numbers, they do so only with the last call read; if they do not,
    the whole input up to the first null result has been read. *)
Theorem calls_only_stops_when_complete (o : trim_options) (p : Parser) :
  empty (frames o) = true → empty (calls o) = false →
  NoDup (no <$> parsed_calls p) →
  (∀ c, c ∈ parsed_calls p → no c ≤ UINT_MAX) →
  N.of_nat (length (parsed_calls p)) ≤ UINT_MAX →
  (numbers_complete (getLast (calls o)) (no <$> read o p loop_start) →
     ∃ cs c, read o p loop_start = cs ++ [c] ∧
             ¬ numbers_complete (getLast (calls o)) (no <$> cs)) ∧
  (¬ numbers_complete (getLast (calls o)) (no <$> read o p loop_start) →
     read o p loop_start = parsed_calls p ∧ fst (loop o p loop_start) = after_null p).
Proof.
  intros Hf Hc Hnd Hb Hlen.
  apply (calls_only_loop o p loop_start []); try done.
  - intros x (c & -> & Hin)%list_elem_of_fmap. by apply Hb.
  - simpl. by rewrite length_fmap.
  - apply (discipline_finish_all []); [apply NoDup_nil_2|].
    intros x Hx. by apply elem_of_nil in Hx.
  - intros Hcomp. specialize (Hcomp 0 (N.le_0_l _)). by apply elem_of_nil in Hcomp.
Qed.

End trim_stops.

Lemma frames_only_stops_after_last_frame_witness :
  ∃ cs c,
    calls_read END_FRAME_BIT
      (mkOptions SelectNone (SelectRanges (mkRange 0 (UpTo 0)) []) "out.trace" (-1))
      [Parsed (mkCall 0 1 0 "glClear"); Parsed (mkCall 1 1 32 "glXSwapBuffers");
       Parsed (mkCall 2 1 0 "glClear"); Parsed (mkCall 3 1 32 "glXSwapBuffers")]
      loop_start = cs ++ [c] ∧
    ends_frame END_FRAME_BIT c = true ∧
    frame (run_all END_FRAME_BIT
             (mkOptions SelectNone (SelectRanges (mkRange 0 (UpTo 0)) []) "out.trace" (-1))
             cs loop_start) = 0.
Proof.
  destruct (frames_only_stops_after_last_frame END_FRAME_BIT
      (mkOptions SelectNone (SelectRanges (mkRange 0 (UpTo 0)) []) "out.trace" (-1))
      [Parsed (mkCall 0 1 0 "glClear"); Parsed (mkCall 1 1 32 "glXSwapBuffers");
       Parsed (mkCall 2 1 0 "glClear"); Parsed (mkCall 3 1 32 "glXSwapBuffers")])
    as (_ & _ & Hstop).
  - reflexivity.
  - reflexivity.
  - vm_compute. reflexivity.
  - apply Hstop. vm_compute. reflexivity.
Defined.

Lemma calls_only_stops_when_complete_witness :
  ∃ cs c,
    calls_read END_FRAME_BIT (mkOptions calls_0_to_2 SelectNone "out.trace" (-1))
               (Parsed <$> interleaved) loop_start = cs ++ [c] ∧
    ¬ numbers_complete 2 (no <$> cs).
Proof.
  assert (NoDup (no <$> parsed_calls (Parsed <$> interleaved))) as Hnd.
  { apply (bool_decide_unpack _). vm_compute. exact I. }
  assert (∀ c, c ∈ parsed_calls (Parsed <$> interleaved) → no c ≤ UINT_MAX) as Hb.
  { intros c Hc. unfold UINT_MAX. simpl in Hc.
    repeat (apply elem_of_cons in Hc as [->|Hc]; [simpl; lia|]). by apply elem_of_nil in Hc. }
  assert (N.of_nat (length (parsed_calls (Parsed <$> interleaved))) ≤ UINT_MAX) as Hlen.
  { vm_compute. discriminate. }
  destruct (calls_only_stops_when_complete END_FRAME_BIT
              (mkOptions calls_0_to_2 SelectNone "out.trace" (-1)) (Parsed <$> interleaved))
    as [Hfull _]; [reflexivity|reflexivity|exact Hnd|exact Hb|exact Hlen|].
  refine (Hfull _).
  assert (no <$> calls_read END_FRAME_BIT (mkOptions calls_0_to_2 SelectNone "out.trace" (-1))
                            (Parsed <$> interleaved) loop_start = [0; 2; 1]) as ->
    by (vm_compute; reflexivity).
  intros j Hj.
  assert (getLast (calls (mkOptions calls_0_to_2 SelectNone "out.trace" (-1))) = 2) as Hl
    by reflexivity.
  rewrite Hl in Hj.
  assert (j = 0 ∨ j = 1 ∨ j = 2) as [-> | [-> | ->]] by lia.
  - by left.
  - right. right. by left.
  - right. by left.
Defined.
